(** * my-emoticon-maker: generation pipeline and collage compositor

    A shallow embedding of the two pieces of logic of the application:

    - [App.tsx] (second half of [src/components/PolaroidCard.tsx]): the
      handlers [handleGenerateClick], [handleRegenerateEmotion] and
      [handleDownloadAlbum] over the React state of the [App] component;
    - [lib/albumUtils] ([src/unnamed/part_000]): [loadImage] and
      [createAlbumPage];
    - the rest of [src/components/PolaroidCard.tsx]: the shake gesture and
      the views of [PolaroidCard], the rotating idea of [Footer], and the
      handlers [handleImageUpload], [handleReset] and
      [handleDownloadIndividualImage] of [App].

    Conventions of the embedding.

    - A JavaScript object used as a string-keyed record is an association
      list in enumeration order ([Object.keys] order): assigning an existing
      key replaces the value in place, assigning a new key appends.  (The
      keys here are emotion labels, never array indices, which JavaScript
      would enumerate first.)
    - The cooperative scheduling of [async] functions is a transition
      system: one event per turn of the event loop that touches the
      pipeline.  Ghost fields log the requests issued and the terminal
      transitions published.
    - JavaScript numbers are exact rationals ([Q]); floating-point rounding
      is not modelled, and a division is only meaningful where its divisor
      is not zero.
    - [Math.random()] is a supplied sequence of numbers, one per card;
      [Date.now()] is a supplied integer of milliseconds.
    - A 2D canvas is the list of drawing commands sent to its context. *)

From Stdlib Require Import QArith Lqa ZifyNat.
From stdpp Require Import base list strings.

Local Open Scope string_scope.
Local Open Scope list_scope.
Local Open Scope nat_scope.

(** ** String-keyed objects *)

Module Obj.

Definition t (V : Type) : Type := list (string * V).

Definition empty {V} : t V := [].

(** [o[k]] *)
Fixpoint get {V} (o : t V) (k : string) : option V :=
  match o with
  | [] => None
  | (k', v) :: o' => if decide (k' = k) then Some v else get o' k
  end.

(** [o[k] = v], also [{...o, [k]: v}] on a copy *)
Fixpoint set {V} (o : t V) (k : string) (v : V) : t V :=
  match o with
  | [] => [(k, v)]
  | (k', v') :: o' =>
      if decide (k' = k) then (k, v) :: o' else (k', v') :: set o' k v
  end.

(** [Object.keys], [Object.values], [Object.entries] *)
Definition keys {V} (o : t V) : list string := o.*1.
Definition values {V} (o : t V) : list V := o.*2.
Definition entries {V} (o : t V) : list (string * V) := o.

End Obj.

(** ** Data model *)

Record EmotionSpec := {
  id : string;
  label : string;
  promptAdjective : string
}.

Inductive ImageStatus := StPending | StDone | StError.

Record GeneratedImage := {
  status : ImageStatus;
  url : option string;
  error : option string
}.

Definition EMOTIONS : list EmotionSpec := [
  {| id := "joy"; label := "ÌïµÏù∏Ïã∏ ÏõÉÏùå";
     promptAdjective := "overjoyed, laughing uncontrollably, extremely happy, ROFL" |};
  {| id := "sadness"; label := "Í¥ëÍ¥ë Ïö∞Îü≠";
     promptAdjective := "crying dramatic tears, very sad, gloomy, heartbroken" |};
  {| id := "anger"; label := "Í∑πÎåÄÎÖ∏";
     promptAdjective := "furious, angry, fire in eyes, red face, steam coming out of ears" |};
  {| id := "surprise"; label := "„Ñ¥0„Ñ± ÏÉÅÏÉÅÎ∂àÍ∞Ä";
     promptAdjective := "shocked, mind blown, wide eyes, jaw dropped, exploding head gesture" |};
  {| id := "love"; label := "Ïã¨Ïøµ Ï£ºÏùò";
     promptAdjective := "deeply in love, heart eyes, floating hearts, romantic blush" |};
  {| id := "confused"; label := "ÎèôÍ≥µ ÏßÄÏßÑ";
     promptAdjective := "confused, dizzy eyes, question marks, scratching head, bewildered" |}
].

Inductive AppPhase := idle | image_uploaded | generating | results_shown.

(** The [useState] cells of [App]. *)
Record App := {
  uploadedImage : option string;
  generatedImages : Obj.t GeneratedImage;
  isLoading : bool;
  isDownloading : bool;
  appState : AppPhase
}.

Definition setGeneratedImages
    (f : Obj.t GeneratedImage -> Obj.t GeneratedImage) (a : App) : App :=
  {| uploadedImage := uploadedImage a;
     generatedImages := f (generatedImages a);
     isLoading := isLoading a;
     isDownloading := isDownloading a;
     appState := appState a |}.

Definition setIsLoading (b : bool) (a : App) : App :=
  {| uploadedImage := uploadedImage a;
     generatedImages := generatedImages a;
     isLoading := b;
     isDownloading := isDownloading a;
     appState := appState a |}.

Definition setIsDownloading (b : bool) (a : App) : App :=
  {| uploadedImage := uploadedImage a;
     generatedImages := generatedImages a;
     isLoading := isLoading a;
     isDownloading := b;
     appState := appState a |}.

Definition setAppState (p : AppPhase) (a : App) : App :=
  {| uploadedImage := uploadedImage a;
     generatedImages := generatedImages a;
     isLoading := isLoading a;
     isDownloading := isDownloading a;
     appState := p |}.

(** ** The image-generation collaborator *)

(** What [generateDecadeImage] can throw: an [Error] instance, which has a
    [message], or any other value. *)
Inductive Thrown :=
  | ThrownError (message : string)
  | ThrownOther.

(** How the promise of one request settles. *)
Inductive Settlement :=
  | Resolved (resultUrl : string)
  | Rejected (err : Thrown).

Record Request := {
  req_label : string;
  req_image : string;
  req_prompt : string
}.

Definition prompt_of (emotionItem : EmotionSpec) : string :=
  "Turn the person in this photo into a trendy, high-quality 3D Pixar-style character or glossy 3D sticker art. The character is expressing the emotion: "
  +:+ promptAdjective emotionItem
  +:+ ". The facial expression must be exaggerated and funny. Lighting should be studio quality with rim lighting. Background should be a simple, vibrant solid pop color.".

(** [err instanceof Error ? err.message : "..."] *)
Definition defaultErrorMessage : string := "Ïò§Î•ò Î∞úÏÉù".

Definition errorMessage (err : Thrown) : string :=
  match err with
  | ThrownError message => message
  | ThrownOther => defaultErrorMessage
  end.

(** ** The four writes to the results map *)

Definition pendingEntry : GeneratedImage :=
  {| status := StPending; url := None; error := None |}.

Definition doneEntry (resultUrl : string) : GeneratedImage :=
  {| status := StDone; url := Some resultUrl; error := None |}.

Definition errorEntry (msg : string) : GeneratedImage :=
  {| status := StError; url := None; error := Some msg |}.

(** [EMOTIONS.forEach(emotion => initialImages[emotion.label] = {status: 'pending'})] *)
Definition initialImages (emotions : list EmotionSpec) : Obj.t GeneratedImage :=
  foldl (fun acc emotion => Obj.set acc (label emotion) pendingEntry)
        Obj.empty emotions.

(** [prev => ({...prev, [label]: {status: 'done', url: resultUrl}})] *)
Definition writeDone (lbl resultUrl : string)
    (prev : Obj.t GeneratedImage) : Obj.t GeneratedImage :=
  Obj.set prev lbl (doneEntry resultUrl).

(** [prev => ({...prev, [label]: {status: 'error', error: errorMessage}})] *)
Definition writeError (lbl : string) (err : Thrown)
    (prev : Obj.t GeneratedImage) : Obj.t GeneratedImage :=
  Obj.set prev lbl (errorEntry (errorMessage err)).

(** [prev => ({...prev, [label]: {status: 'pending'}})] *)
Definition writePending (lbl : string)
    (prev : Obj.t GeneratedImage) : Obj.t GeneratedImage :=
  Obj.set prev lbl pendingEntry.

(** The [try]/[catch] tail shared by [processEmotion] and
    [handleRegenerateEmotion]. *)
Definition writeSettled (lbl : string) (o : Settlement)
    (prev : Obj.t GeneratedImage) : Obj.t GeneratedImage :=
  match o with
  | Resolved resultUrl => writeDone lbl resultUrl prev
  | Rejected err => writeError lbl err prev
  end.

Definition settledStatus (o : Settlement) : ImageStatus :=
  match o with
  | Resolved _ => StDone
  | Rejected _ => StError
  end.

(** ** [handleGenerateClick]: the bounded worker pool *)

Definition concurrencyLimit : nat := 2.

(** Where one [async] worker of [workers] stands: about to test the loop
    condition, suspended on [await processEmotion(emotion)], or returned. *)
Inductive Worker :=
  | Ready
  | Awaiting (emotion : EmotionSpec)
  | Finished.

Record Pipeline := {
  app : App;
  sourceImage : string;                        (* [uploadedImage] as captured by the closures *)
  emotionsQueue : list EmotionSpec;
  workers : list Worker;
  joined : bool;                               (* [Promise.all(workers)] resolved *)
  issued : list Request;                       (* ghost: requests sent, oldest first *)
  outstanding : list string;                   (* ghost: labels of unsettled requests *)
  transitions : list (string * ImageStatus)    (* ghost: terminal writes, oldest first *)
}.

Definition isFinished (w : Worker) : bool :=
  match w with Finished => true | _ => false end.

Definition isAwaiting (w : Worker) : bool :=
  match w with Awaiting _ => true | _ => false end.

(** Removes the first occurrence of a label. *)
Fixpoint removeFirst (l : string) (ls : list string) : list string :=
  match ls with
  | [] => []
  | x :: ls' => if decide (x = l) then ls' else x :: removeFirst l ls'
  end.

(** The synchronous prefix of the handler: the guard on [uploadedImage],
    the fresh all-pending map, the copy of [EMOTIONS] into the queue and
    the creation of the workers. *)
Definition handleGenerateClick_start
    (emotions : list EmotionSpec) (a : App) : option Pipeline :=
  match uploadedImage a with
  | None => None
  | Some img =>
      Some {| app := setGeneratedImages (fun _ => initialImages emotions)
                       (setAppState generating (setIsLoading true a));
              sourceImage := img;
              emotionsQueue := emotions;
              workers := replicate concurrencyLimit Ready;
              joined := false;
              issued := [];
              outstanding := [];
              transitions := [] |}
  end.

Inductive Event :=
  | Resume (w : nat)                  (* worker [w] runs up to its next [await] *)
  | Settle (w : nat) (o : Settlement) (* the request awaited by worker [w] settles *)
  | Join.                             (* the code after [await Promise.all(workers)] *)

(** [while (emotionsQueue.length > 0) { const emotion = emotionsQueue.shift(); ... }] *)
Definition resume (w : nat) (s : Pipeline) : option Pipeline :=
  match workers s !! w with
  | Some Ready =>
      match emotionsQueue s with
      | [] =>
          Some {| app := app s;
                  sourceImage := sourceImage s;
                  emotionsQueue := [];
                  workers := <[w := Finished]> (workers s);
                  joined := joined s;
                  issued := issued s;
                  outstanding := outstanding s;
                  transitions := transitions s |}
      | emotion :: rest =>
          Some {| app := app s;
                  sourceImage := sourceImage s;
                  emotionsQueue := rest;
                  workers := <[w := Awaiting emotion]> (workers s);
                  joined := joined s;
                  issued := issued s ++
                            [{| req_label := label emotion;
                                req_image := sourceImage s;
                                req_prompt := prompt_of emotion |}];
                  outstanding := label emotion :: outstanding s;
                  transitions := transitions s |}
      end
  | _ => None
  end.

(** The rest of [processEmotion] once [generateDecadeImage] has settled. *)
Definition settle (w : nat) (o : Settlement) (s : Pipeline) : option Pipeline :=
  match workers s !! w with
  | Some (Awaiting emotion) =>
      Some {| app := setGeneratedImages (writeSettled (label emotion) o) (app s);
              sourceImage := sourceImage s;
              emotionsQueue := emotionsQueue s;
              workers := <[w := Ready]> (workers s);
              joined := joined s;
              issued := issued s;
              outstanding := removeFirst (label emotion) (outstanding s);
              transitions := transitions s ++ [(label emotion, settledStatus o)] |}
  | _ => None
  end.

(** [setIsLoading(false); setAppState('results-shown')] *)
Definition join (s : Pipeline) : option Pipeline :=
  if forallb isFinished (workers s) && negb (joined s) then
    Some {| app := setAppState results_shown (setIsLoading false (app s));
            sourceImage := sourceImage s;
            emotionsQueue := emotionsQueue s;
            workers := workers s;
            joined := true;
            issued := issued s;
            outstanding := outstanding s;
            transitions := transitions s |}
  else None.

Definition step (ev : Event) (s : Pipeline) : option Pipeline :=
  match ev with
  | Resume w => resume w s
  | Settle w o => settle w o s
  | Join => join s
  end.

Fixpoint run (evs : list Event) (s : Pipeline) : option Pipeline :=
  match evs with
  | [] => Some s
  | ev :: evs' =>
      match step ev s with
      | Some s' => run evs' s'
      | None => None
      end
  end.

(** The states of a run started by a click on an application state [a]. *)
Definition reachable (emotions : list EmotionSpec) (a : App) (s : Pipeline) : Prop :=
  exists s0 evs, handleGenerateClick_start emotions a = Some s0 /\ run evs s0 = Some s.

(** Events left before the run has settled. *)
Definition fuel (s : Pipeline) : nat :=
  2 * length (emotionsQueue s)
  + length (filter (fun w => isAwaiting w = true) (workers s))
  + length (filter (fun w => isFinished w = false) (workers s))
  + (if joined s then 0 else 1).

(** One way to drive a run to its end, under an oracle giving the
    settlement of the request for each label: the lowest-numbered worker
    that has not returned moves; when all have returned, the join. *)
Fixpoint firstMove (oracle : string -> Settlement) (ws : list Worker) (i : nat)
  : option Event :=
  match ws with
  | [] => None
  | Ready :: _ => Some (Resume i)
  | Awaiting emotion :: _ => Some (Settle i (oracle (label emotion)))
  | Finished :: ws' => firstMove oracle ws' (S i)
  end.

Definition nextEvent (oracle : string -> Settlement) (s : Pipeline) : option Event :=
  match firstMove oracle (workers s) 0 with
  | Some ev => Some ev
  | None => if joined s then None else Some Join
  end.

Fixpoint schedule (oracle : string -> Settlement) (n : nat) (s : Pipeline)
  : list Event :=
  match n with
  | 0 => []
  | S n' =>
      match nextEvent oracle s with
      | None => []
      | Some ev =>
          match step ev s with
          | Some s' => ev :: schedule oracle n' s'
          | None => []
          end
      end
  end.

(** ** [handleRegenerateEmotion] *)

(** [EMOTIONS.find(e => e.label === label)] *)
Definition findEmotion (emotions : list EmotionSpec) (lbl : string)
  : option EmotionSpec :=
  List.find (fun e => bool_decide (label e = lbl)) emotions.

(** [generatedImages[label]?.status === 'pending'] *)
Definition isPending (g : Obj.t GeneratedImage) (lbl : string) : bool :=
  match Obj.get g lbl with
  | Some {| status := StPending |} => true
  | _ => false
  end.

(** The handler up to its [await]: the three guards, then the reset of the
    entry to pending and the request.  The handler is re-created at every
    render, so the [generatedImages] it reads is the one of the state it is
    called on.  Returns the new state and the request sent, if any. *)
Definition handleRegenerateEmotion_start
    (emotions : list EmotionSpec) (lbl : string) (a : App)
  : App * option Request :=
  match uploadedImage a with
  | None => (a, None)
  | Some img =>
      match findEmotion emotions lbl with
      | None => (a, None)
      | Some emotionItem =>
          if isPending (generatedImages a) lbl then (a, None)
          else (setGeneratedImages (writePending lbl) a,
                Some {| req_label := lbl;
                        req_image := img;
                        req_prompt := prompt_of emotionItem |})
      end
  end.

(** The handler after its [await]: the [try] tail or the [catch]. *)
Definition handleRegenerateEmotion_settle
    (lbl : string) (o : Settlement) (a : App) : App :=
  setGeneratedImages (writeSettled lbl o) a.

(** ** [lib/albumUtils]: the canvas and its commands *)

Local Open Scope Q_scope.

Record HTMLImageElement := {
  src : string;
  naturalWidth : Z;
  naturalHeight : Z
}.

Inductive Paint :=
  | Color (css : string)
  | RadialGradient (x0 y0 r0 x1 y1 r1 : Q) (stops : list (Q * string)).

(** The calls on the 2D context that paint or change the transform and the
    clip; [fillStyle] and [font] are carried by the call that uses them,
    shadow settings are left out. *)
Inductive DrawOp :=
  | FillRect (fillStyle : Paint) (x y w h : Q)
  | FillText (font : string) (fillStyle : Paint) (text : string) (x y : Q)
  | Save
  | Translate (x y : Q)
  | Rotate (angle : Q)
  | FillRoundRect (fillStyle : Paint) (x y w h radius : Q)
  | Clip
  | DrawImage (img : HTMLImageElement) (dx dy dw dh : Q)
  | Restore.

(** [canvas.toDataURL('image/jpeg', quality)]: the artifact is represented
    by the commands it encodes. *)
Inductive DataURL :=
  | Jpeg (quality : Q) (content : list DrawOp).

Inductive Exn :=
  | NoContext                          (* 'Could not get 2D canvas context' *)
  | LoadFailed (srcs : list string).   (* 'Failed to load image: ...', for one of [srcs] *)

(** What happens during one call, in order. *)
Inductive Ev :=
  | Draw (op : DrawOp)
  | LoadStart (s : string)   (* [img.src = src] in [loadImage] *)
  | AwaitLoads.              (* [await Promise.all(...)] *)

(** Computations that log events and may throw. *)
Definition Prog (A : Type) : Type := list Ev -> list Ev * (Exn + A).

Definition ret {A} (a : A) : Prog A := fun log => (log, inr a).

Definition throw {A} (e : Exn) : Prog A := fun log => (log, inl e).

Definition bind {A B} (m : Prog A) (f : A -> Prog B) : Prog B :=
  fun log =>
    match m log with
    | (log', inl e) => (log', inl e)
    | (log', inr a) => f a log'
    end.

Definition emit (ev : Ev) : Prog unit := fun log => (log ++ [ev], inr tt).

Notation "'let*' x := m 'in' k" := (bind m (fun x => k))
  (at level 10, x name, m at level 100, k at level 200).
Notation "m >> k" := (bind m (fun _ => k))
  (at level 100, k at level 200, right associativity).

Definition draw (op : DrawOp) : Prog unit := emit (Draw op).

Fixpoint mapM {A B} (f : A -> Prog B) (l : list A) : Prog (list B) :=
  match l with
  | [] => ret []
  | a :: l' => let* b := f a in let* bs := mapM f l' in ret (b :: bs)
  end.

(** [l.forEach((x, index) => f(x, index))], counting from [index]. *)
Fixpoint forEachFrom {A} (f : A -> nat -> Prog unit) (l : list A) (index : nat)
  : Prog unit :=
  match l with
  | [] => ret tt
  | a :: l' => f a index >> forEachFrom f l' (S index)
  end.

(** The commands painted so far. *)
Definition painted (log : list Ev) : list DrawOp :=
  omap (fun ev => match ev with Draw op => Some op | _ => None end) log.

Definition toDataURL (quality : Q) : Prog DataURL :=
  fun log => (log, inr (Jpeg quality (painted log))).

Definition num (n : nat) : Q := inject_Z (Z.of_nat n).

Definition canvasWidth : Q := 2480.
Definition canvasHeight : Q := 3508.

(** [grid = { cols: 2, rows: 3, padding: 120 }] *)
Definition grid_cols : nat := 2.
Definition grid_rows : nat := 3.
Definition grid_padding : Q := 120.

Definition contentTopMargin : Q := 400.
Definition contentHeight : Q := canvasHeight - contentTopMargin.
Definition cellWidth : Q :=
  (canvasWidth - grid_padding * (num grid_cols + 1)) / num grid_cols.
Definition cellHeight : Q :=
  (contentHeight - grid_padding * (num grid_rows + 1)) / num grid_rows.

Definition cardAspectRatio : Q := 3 / 4.
Definition cardHeight : Q := cellHeight * 0.9.
Definition cardWidth : Q := cardHeight * cardAspectRatio.

Definition rowOf (index : nat) : nat := (index / grid_cols)%nat.
Definition colOf (index : nat) : nat := (index mod grid_cols)%nat.

(** Top-left corner of the card of entry [index]. *)
Definition cardX (index : nat) : Q :=
  grid_padding * (num (colOf index) + 1) + cellWidth * num (colOf index)
  + (cellWidth - cardWidth) / 2.
Definition cardY (index : nat) : Q :=
  contentTopMargin + grid_padding * (num (rowOf index) + 1)
  + cellHeight * num (rowOf index) + (cellHeight - cardHeight) / 2.

(** The point the context is translated to before the card is painted. *)
Definition centerX (index : nat) : Q := cardX index + cardWidth / 2.
Definition centerY (index : nat) : Q := cardY index + cardHeight / 2.

(** The image area of a card. *)
Definition imgHeight : Q := cardHeight * 0.85.
Definition imgWidth : Q := cardWidth.

Record Fit := { drawW : Q; drawH : Q; offX : Q; offY : Q }.

(** The cover fit of [img] into a [targetW] x [targetH] rectangle
    ([let drawW, drawH, offX, offY] and the [if] that sets them). *)
Definition coverFit (targetW targetH : Q) (img : HTMLImageElement) : Fit :=
  let imgRatio := inject_Z (naturalWidth img) / inject_Z (naturalHeight img) in
  let targetRatio := targetW / targetH in
  if negb (Qle_bool imgRatio targetRatio) then
    let drawH := targetH in
    let drawW := drawH * imgRatio in
    {| drawW := drawW; drawH := drawH;
       offX := - (drawW - targetW) / 2; offY := 0 |}
  else
    let drawW := targetW in
    let drawH := drawW / imgRatio in
    {| drawW := drawW; drawH := drawH;
       offX := 0; offY := - (drawH - targetH) / 2 |}.

(** ** [loadImage] and [createAlbumPage] *)

Section Compositor.

(** The browser: whether [canvas.getContext('2d')] gives a context, how
    each source decodes ([None]: [onerror] fires; [Some (w, h)]: [onload]
    fires on an image of these natural dimensions), and the successive
    values of [Math.random()], one per card. *)
Variable getContext : bool.
Variable decode : string -> option (Z * Z).
Variable random : nat -> Q.

(** A promise of an image: its source, and the image it resolves with
    unless it rejects. *)
Definition ImagePromise : Type := string * option HTMLImageElement.

(** What [loadImage s] settles with: the image, unless [onerror] fires. *)
Definition loaded (s : string) : option HTMLImageElement :=
  match decode s with
  | Some (w, h) => Some {| src := s; naturalWidth := w; naturalHeight := h |}
  | None => None
  end.

Definition loadImage (s : string) : Prog ImagePromise :=
  emit (LoadStart s) >> ret (s, loaded s).

Definition rejectedSrcs (ps : list ImagePromise) : list string :=
  omap (fun p => match p.2 with None => Some p.1 | Some _ => None end) ps.

(** [await Promise.all(promises)] *)
Definition awaitAll (ps : list ImagePromise) : Prog (list HTMLImageElement) :=
  emit AwaitLoads >>
  match rejectedSrcs ps with
  | [] => ret (omap snd ps)
  | srcs => throw (LoadFailed srcs)
  end.

Definition titleText : string := "나만의 이모티콘 컬렉션".

Definition paintBackground : Prog unit :=
  draw (FillRect (Color "#09090b") 0 0 canvasWidth canvasHeight) >>
  draw (FillRect
          (RadialGradient (canvasWidth / 2) (canvasHeight / 2) 0
                          (canvasWidth / 2) (canvasHeight / 2) canvasWidth
                          [(0, "#18181b"); (1, "#000000")])
          0 0 canvasWidth canvasHeight).

Definition paintTitle : Prog unit :=
  draw (FillText "bold 120px 'Black Han Sans', sans-serif" (Color "#a3e635")
                 titleText (canvasWidth / 2) 200) >>
  draw (FillText "60px 'Do Hyeon', sans-serif" (Color "#71717a")
                 "Made with Gemini AI" (canvasWidth / 2) 290).

(** [(Math.random() - 0.5) * 0.05] *)
Definition rotationOf (index : nat) : Q := (random index - 0.5) * 0.05.

(** The body of [imagesWithLabels.forEach(({ label, img }, index) => ...)]. *)
Definition drawCard (entry : string * HTMLImageElement) (index : nat)
  : Prog unit :=
  let '(lbl, img) := entry in
  let x := cardX index in
  let y := cardY index in
  draw Save >>
  draw (Translate (x + cardWidth / 2) (y + cardHeight / 2)) >>
  draw (Rotate (rotationOf index)) >>
  draw (FillRoundRect (Color "#27272a")
          (- cardWidth / 2) (- cardHeight / 2) cardWidth cardHeight 40) >>
  draw Clip >>
  let fit := coverFit imgWidth imgHeight img in
  draw (DrawImage img (offX fit - cardWidth / 2) (offY fit - cardHeight / 2)
          (drawW fit) (drawH fit)) >>
  draw (FillRect (Color "#18181b")
          (- cardWidth / 2) (cardHeight / 2 - (cardHeight - imgHeight))
          cardWidth (cardHeight - imgHeight)) >>
  let textY := cardHeight / 2 - (cardHeight - imgHeight) / 2 in
  draw (FillText "60px 'Do Hyeon', sans-serif" (Color "#a3e635")
          ("#" +:+ lbl) 0 textY) >>
  draw Restore.

Definition createAlbumPage (imageData : Obj.t string) : Prog DataURL :=
  (if getContext then ret tt else throw NoContext) >>
  paintBackground >>
  paintTitle >>
  let labels := Obj.keys imageData in
  let* promises := mapM loadImage (Obj.values imageData) in
  let* loadedImages := awaitAll promises in
  let imagesWithLabels := zip labels loadedImages in
  forEachFrom drawCard imagesWithLabels 0%nat >>
  toDataURL 0.9.

(** ** [handleDownloadAlbum] *)

Inductive Effect :=
  | Alert (msg : string)
  | ConsoleError (msg : string)
  | Download (href : DataURL) (download : string).

(** JavaScript truthiness of an optional string. *)
Definition truthy (s : option string) : bool :=
  match s with
  | Some (String _ _) => true
  | _ => false
  end.

(** [image.status === 'done' && image.url] *)
Definition isDoneWithUrl (image : GeneratedImage) : bool :=
  match status image with
  | StDone => truthy (url image)
  | _ => false
  end.

(** The [filter]/[reduce] that builds [imageData] from the results map. *)
Definition albumInput (g : Obj.t GeneratedImage) : Obj.t string :=
  foldl (fun acc entry =>
           match url entry.2 with
           | Some u => if truthy (Some u) then Obj.set acc entry.1 u else acc
           | None => acc
           end)
        Obj.empty
        (List.filter (fun entry => isDoneWithUrl entry.2) (Obj.entries g)).

(** The two notices shown by [alert]. *)
Definition stillGeneratingNotice : string :=
  "Ïù¥Î™®Ìã∞ÏΩòÏù¥ ÏïÑÏßÅ ÏÉùÏÑ± Ï§ëÏù¥Ïïº! Ïû†ÏãúÎßå Í∏∞Îã§Î†§Ï§ò!".
Definition saveFailedNotice : string :=
  "Ï†ÄÏû• Ï§ëÏóê Î¨∏Ï†úÍ∞Ä ÏÉùÍ≤ºÏñ¥. Îã§Ïãú ÏãúÎèÑÌï¥Î¥ê!".

Record Exported := {
  appAfter : App;
  effects : list Effect;
  (** the call to [createAlbumPage], when there was one: its events and
      how it ended *)
  composition : option (list Ev * (Exn + DataURL))
}.

Definition handleDownloadAlbum (emotions : list EmotionSpec) (a : App)
  : Exported :=
  let a1 := setIsDownloading true a in
  let imageData := albumInput (generatedImages a1) in
  if (length (Obj.keys imageData) <? length emotions)%nat then
    {| appAfter := setIsDownloading false a1;
       effects := [Alert stillGeneratingNotice];
       composition := None |}
  else
    match createAlbumPage imageData [] with
    | (log, inr albumDataUrl) =>
        {| appAfter := setIsDownloading false a1;
           effects := [Download albumDataUrl "my-emoji-collection.jpg"];
           composition := Some (log, inr albumDataUrl) |}
    | (log, inl exn) =>
        {| appAfter := setIsDownloading false a1;
           effects := [ConsoleError "Failed to create or download album:";
                       Alert saveFailedNotice];
           composition := Some (log, inl exn) |}
    end.

End Compositor.


(** ** Vocabulary of the properties *)

Definition terminal (st : ImageStatus) : Prop := st = StDone ∨ st = StError.

(** At most one of [url] and [error] is set, none while pending. *)
Definition entryOk (g : GeneratedImage) : Prop :=
  (url g = None ∨ error g = None)
  ∧ (status g = StPending → url g = None ∧ error g = None).

Definition resultsOk (m : Obj.t GeneratedImage) : Prop :=
  Forall (fun entry => entryOk entry.2) m.

(** The writes to the results map, by the place that makes them. *)
Inductive ResultsWrite :=
  | WInitial (emotions : list EmotionSpec)     (* [handleGenerateClick], before the workers *)
  | WDone (lbl resultUrl : string)             (* [try] tail *)
  | WError (lbl : string) (err : Thrown)       (* [catch] *)
  | WPending (lbl : string).                   (* [handleRegenerateEmotion], before its request *)

Definition applyWrite (w : ResultsWrite) (prev : Obj.t GeneratedImage)
  : Obj.t GeneratedImage :=
  match w with
  | WInitial emotions => initialImages emotions
  | WDone lbl resultUrl => writeDone lbl resultUrl prev
  | WError lbl err => writeError lbl err prev
  | WPending lbl => writePending lbl prev
  end.

(** The label a keyed write replaces and the entry it stores. *)
Definition writeTarget (w : ResultsWrite) : option (string * GeneratedImage) :=
  match w with
  | WInitial _ => None
  | WDone lbl resultUrl => Some (lbl, doneEntry resultUrl)
  | WError lbl err => Some (lbl, errorEntry (errorMessage err))
  | WPending lbl => Some (lbl, pendingEntry)
  end.

Definition awaitedLabel (w : Worker) : option string :=
  match w with
  | Awaiting emotion => Some (label emotion)
  | _ => None
  end.

(** What holds of every state of a run over [emotions]. *)
Record invariant (emotions : list EmotionSpec) (s : Pipeline) : Prop := {
  inv_pool : length (workers s) = concurrencyLimit;
  inv_outstanding : outstanding s ≡ₚ omap awaitedLabel (workers s);
  inv_fifo : (req_label <$> issued s) ++ (label <$> emotionsQueue s)
             = label <$> emotions;
  inv_settled : (transitions s).*1 ++ outstanding s ≡ₚ req_label <$> issued s;
  inv_terminal : ∀ l, l ∈ (transitions s).*1 →
                 ∃ g, Obj.get (generatedImages (app s)) l = Some g
                      ∧ terminal (status g);
  inv_drained : Finished ∈ workers s → emotionsQueue s = [];
  inv_joined : joined s = true → Forall (fun w => w = Finished) (workers s)
}.

(** How many requests were sent, and how many terminal writes were made,
    for a label. *)
Definition requestsFor (l : string) (s : Pipeline) : nat :=
  length (filter (fun r => req_label r = l) (issued s)).

Definition transitionsFor (l : string) (s : Pipeline) : nat :=
  length (filter (fun t => t.1 = l) (transitions s)).

(** ** A sample session *)

Definition sampleApp : App :=
  {| uploadedImage := Some "data:image/png;base64,iVBORw0KGgo=";
     generatedImages := Obj.empty;
     isLoading := false;
     isDownloading := false;
     appState := image_uploaded |}.

(** The state right after the click on [sampleApp]. *)
Definition sampleStart : Pipeline :=
  {| app := {| uploadedImage := uploadedImage sampleApp;
               generatedImages := initialImages EMOTIONS;
               isLoading := true;
               isDownloading := false;
               appState := generating |};
     sourceImage := "data:image/png;base64,iVBORw0KGgo=";
     emotionsQueue := EMOTIONS;
     workers := [Ready; Ready];
     joined := false;
     issued := [];
     outstanding := [];
     transitions := [] |}.

(** A run in which the two workers interleave; the requests for joy,
    anger and love succeed, the other three fail. *)
Definition sampleEvents : list Event :=
  [ Resume 0; Resume 1;
    Settle 1 (Rejected (ThrownError "quota exceeded"));
    Resume 1;
    Settle 0 (Resolved "data:image/jpeg;base64,/9j/joy");
    Resume 0;
    Settle 0 (Rejected ThrownOther);
    Resume 0;
    Settle 1 (Resolved "data:image/jpeg;base64,/9j/anger");
    Resume 1;
    Settle 1 (Rejected (ThrownError "quota exceeded"));
    Resume 1;
    Settle 0 (Resolved "data:image/jpeg;base64,/9j/love");
    Resume 0;
    Join ].

Definition sampleFinal : Pipeline :=
  default sampleStart (run sampleEvents sampleStart).

(** Both workers suspended on their first request. *)
Definition sampleBusy : Pipeline :=
  default sampleStart (run [Resume 0; Resume 1] sampleStart).

(** The second emotion, the one worker 1 is suspended on in [sampleBusy]. *)
Definition sampleSecond : EmotionSpec :=
  List.nth 1 EMOTIONS {| id := ""; label := ""; promptAdjective := "" |}.

(** ** Vocabulary of the compositor properties *)

(** The events of the background and the title. *)
Definition preludeLog : list Ev := ((paintBackground >> paintTitle) []).1.

(** The commands of one card. *)
Definition cardOps (random : nat → Q)
    (entry : string * HTMLImageElement) (index : nat) : list DrawOp :=
  painted (drawCard random entry index []).1.

(** The commands of the cards of [entries], in order, the first one being
    entry number [index]. *)
Fixpoint cardsFrom (random : nat → Q)
    (entries : list (string * HTMLImageElement)) (index : nat) : list DrawOp :=
  match entries with
  | [] => []
  | entry :: rest => cardOps random entry index ++ cardsFrom random rest (S index)
  end.

Definition isDraw (ev : Ev) : Prop := ∃ op, ev = Draw op.

(** "Nothing is painted before the loads have been awaited". *)
Definition paintsOnlyAfterLoads (log : list Ev) : Prop :=
  ∀ before after, log = before ++ AwaitLoads :: after →
                   ∀ ev, ev ∈ before → ¬ isDraw ev.

(** Top-left corner of the grid cell of a column, of a row. *)
Definition cellX (col : nat) : Q := grid_padding * (num col + 1) + cellWidth * num col.
Definition cellY (row : nat) : Q :=
  contentTopMargin + grid_padding * (num row + 1) + cellHeight * num row.

(** Lower edge of the last row of cells. *)
Definition gridBottom : Q := cellY (grid_rows - 1) + cellHeight.

(** The results map holds one entry per key, all of them labels of [emotions]. *)
Definition resultsWf (emotions : list EmotionSpec) (g : Obj.t GeneratedImage) : Prop :=
  NoDup (Obj.keys g) ∧ ∀ k, k ∈ Obj.keys g → k ∈ label <$> emotions.

(** ** Sample albums *)

Definition sampleDecode (s : string) : option (Z * Z) :=
  if bool_decide (s = "data:broken") then None else Some (1024, 1024)%Z.

(** Seven entries, one more than the grid has cells. *)
Definition sampleAlbum7 : Obj.t string :=
  [ ("joy", "data:image/jpeg;base64,/9j/joy");
    ("sadness", "data:image/jpeg;base64,/9j/sadness");
    ("anger", "data:image/jpeg;base64,/9j/anger");
    ("surprise", "data:image/jpeg;base64,/9j/surprise");
    ("love", "data:image/jpeg;base64,/9j/love");
    ("confused", "data:image/jpeg;base64,/9j/confused");
    ("extra", "data:image/jpeg;base64,/9j/extra") ].

Definition sampleAlbum (n : nat) : Obj.t string := take n sampleAlbum7.

(** One entry that does not load, between two that do. *)
Definition sampleBrokenAlbum : Obj.t string :=
  [ ("joy", "data:image/jpeg;base64,/9j/joy");
    ("sadness", "data:broken");
    ("anger", "data:image/jpeg;base64,/9j/anger") ].

(** [Math.random()] always returning one half: no rotation. *)
Definition noJitter : nat → Q := fun _ => 0.5%Q.

(** The application after [sampleFinal]: three entries done, three in error. *)
Definition sampleHalfDone : App := app sampleFinal.

(** The same with every entry done. *)
Definition sampleAllDone : App :=
  setGeneratedImages
    (fun _ => foldl (fun acc e =>
                       Obj.set acc (label e)
                         (doneEntry ("data:image/jpeg;base64,/9j/" +:+ id e)))
                    Obj.empty EMOTIONS)
    (app sampleFinal).

Definition sampleWide : HTMLImageElement :=
  {| src := "data:image/jpeg;base64,/9j/wide";
     naturalWidth := 1600; naturalHeight := 900 |}.

Definition sampleTall : HTMLImageElement :=
  {| src := "data:image/jpeg;base64,/9j/tall";
     naturalWidth := 600; naturalHeight := 1200 |}.

(** ** Further handlers of [App] *)

Definition setUploadedImage (img : option string) (a : App) : App :=
  {| uploadedImage := img;
     generatedImages := generatedImages a;
     isLoading := isLoading a;
     isDownloading := isDownloading a;
     appState := appState a |}.

(** The [onloadend] callback of [handleImageUpload]; [file] is the data
    URL read from [e.target.files[0]], when there is such a file. *)
Definition handleImageUpload (file : option string) (a : App) : App :=
  match file with
  | None => a
  | Some result =>
      setGeneratedImages (fun _ => Obj.empty)
        (setAppState image_uploaded (setUploadedImage (Some result) a))
  end.

Definition handleReset (a : App) : App :=
  setAppState idle
    (setGeneratedImages (fun _ => Obj.empty) (setUploadedImage None a)).

(** The [<a>] element a handler creates and clicks. *)
Record LinkClick := {
  href : string;
  download : string
}.

(** [handleDownloadIndividualImage]: the link clicked, if any. *)
Definition handleDownloadIndividualImage (lbl : string) (a : App)
  : option LinkClick :=
  match Obj.get (generatedImages a) lbl with
  | Some image =>
      match status image, url image with
      | StDone, Some u =>
          if truthy (Some u)
          then Some {| href := u; download := "emoji-" +:+ lbl +:+ ".jpg" |}
          else None
      | _, _ => None
      end
  | None => None
  end.

(** The request [processEmotion] sends for an emotion. *)
Definition requestOf (img : string) (emotion : EmotionSpec) : Request :=
  {| req_label := label emotion;
     req_image := img;
     req_prompt := prompt_of emotion |}.

(** [sampleAllDone] with the second entry done at a URL that does not
    decode. *)
Definition sampleBrokenDone : App :=
  setGeneratedImages
    (fun g => Obj.set g (label sampleSecond) (doneEntry "data:broken"))
    sampleAllDone.

(** ** Vocabulary of the further compositor properties *)

(** Depth of the stack of saved states after [ops], starting at depth
    [d]: [None] if a [restore] finds nothing to pop or a [save] would go
    beyond [bound]. *)
Fixpoint stackAfter (bound d : nat) (ops : list DrawOp) : option nat :=
  match ops with
  | [] => Some d
  | Save :: rest =>
      if (S d <=? bound)%nat then stackAfter bound (S d) rest else None
  | Restore :: rest =>
      match d with
      | O => None
      | S d' => stackAfter bound d' rest
      end
  | _ :: rest => stackAfter bound d rest
  end.

(** The images drawn, and the texts written, in order. *)
Definition drawnImages (ops : list DrawOp) : list HTMLImageElement :=
  omap (fun op => match op with DrawImage img _ _ _ _ => Some img | _ => None end)
       ops.

Definition writtenTexts (ops : list DrawOp) : list string :=
  omap (fun op => match op with FillText _ _ text _ _ => Some text | _ => None end)
       ops.

(** The rectangles of two cards, before rotation, have no inner point in
    common. *)
Definition cardsApart (i j : nat) : Prop :=
  (cardX i + cardWidth <= cardX j \/ cardX j + cardWidth <= cardX i
   \/ cardY i + cardHeight <= cardY j \/ cardY j + cardHeight <= cardY i)%Q.


(** ** [PolaroidCard]: the shake gesture *)

(** The two [useRef] cells of the card. *)
Record DragRefs := {
  lastShakeTime : Z;
  lastVelocity : Q * Q
}.

Definition initialDragRefs : DragRefs :=
  {| lastShakeTime := 0; lastVelocity := (0%Q, 0%Q) |}.

Definition velocityThreshold : Q := 1500.
Definition shakeCooldown : Z := 2000.

Definition handleDragStart (r : DragRefs) : DragRefs :=
  {| lastShakeTime := lastShakeTime r; lastVelocity := (0%Q, 0%Q) |}.

(** [handleDrag]: the new cells, and whether [onShake(caption)] is called.
    [now] is [Date.now()].  [Math.sqrt(x * x + y * y) > velocityThreshold]
    is compared on the squares. *)
Definition handleDrag (hasOnShake isMobile : bool) (now : Z) (velocity : Q * Q)
    (r : DragRefs) : DragRefs * bool :=
  if negb hasOnShake || isMobile then (r, false)
  else
    let '(x, y) := velocity in
    let '(prevX, prevY) := lastVelocity r in
    let dotProduct := (x * prevX + y * prevY)%Q in
    if negb (Qle_bool (x * x + y * y) (velocityThreshold * velocityThreshold))
       && negb (Qle_bool 0 dotProduct)
       && (shakeCooldown <? now - lastShakeTime r)%Z
    then ({| lastShakeTime := now; lastVelocity := (x, y) |}, true)
    else ({| lastShakeTime := lastShakeTime r; lastVelocity := (x, y) |}, false).

Inductive Gesture :=
  | DragStart
  | Drag (now : Z) (velocity : Q * Q).

(** The times at which a sequence of gestures calls [onShake]. *)
Fixpoint shakeTimes (hasOnShake isMobile : bool) (gs : list Gesture)
    (r : DragRefs) : list Z :=
  match gs with
  | [] => []
  | DragStart :: gs' => shakeTimes hasOnShake isMobile gs' (handleDragStart r)
  | Drag now velocity :: gs' =>
      let '(r', shaken) := handleDrag hasOnShake isMobile now velocity r in
      (if shaken then [now] else [])
      ++ shakeTimes hasOnShake isMobile gs' r'
  end.

(** Each time is more than the cooldown after the one before it. *)
Fixpoint spacedFrom (last : Z) (times : list Z) : Prop :=
  match times with
  | [] => True
  | t :: times' => (shakeCooldown < t - last)%Z /\ spacedFrom t times'
  end.

(** What the card shows in its frame, by the four conditions of the JSX. *)
Inductive CardView := LoadingSpinner | ErrorDisplay | Picture (imageUrl : string) | Placeholder.

Definition cardViews (st : ImageStatus) (imageUrl : option string)
  : list CardView :=
  (match st with StPending => [LoadingSpinner] | _ => [] end)
  ++ (match st with StError => [ErrorDisplay] | _ => [] end)
  ++ (match st, imageUrl with
      | StDone, Some u => if truthy (Some u) then [Picture u] else []
      | _, _ => []
      end)
  ++ (match st with
      | StDone => if truthy imageUrl then [] else [Placeholder]
      | _ => []
      end).

(** [generatedImages[emotion.label]?.status || 'pending'] and
    [generatedImages[emotion.label]?.url], the props [App] passes. *)
Definition shownStatus (g : Obj.t GeneratedImage) (lbl : string) : ImageStatus :=
  match Obj.get g lbl with
  | Some image => status image
  | None => StPending
  end.

Definition shownUrl (g : Obj.t GeneratedImage) (lbl : string) : option string :=
  match Obj.get g lbl with
  | Some image => url image
  | None => None
  end.

(** ** [Footer]: the rotating idea *)

Definition REMIX_IDEAS : list string := [
  "위인전 속 인물 되어보기";
  "우리 반 캐릭터 만들기";
  "미래의 내 모습 상상하기";
  "좋아하는 동화 주인공 되기";
  "감정 표현 놀이하기";
  "나만의 웹툰 캐릭터 만들기"
].

(** [prevIndex => (prevIndex + 1) % REMIX_IDEAS.length] *)
Definition nextIdea (prevIndex : nat) : nat :=
  ((prevIndex + 1) mod length REMIX_IDEAS)%nat.

(** A run in which every request succeeds, and its last state. *)
Definition sampleSuccessEvents : list Event :=
  [ Resume 0; Resume 1;
    Settle 1 (Resolved "data:image/jpeg;base64,/9j/sadness");
    Resume 1;
    Settle 0 (Resolved "data:image/jpeg;base64,/9j/joy");
    Resume 0;
    Settle 0 (Resolved "data:image/jpeg;base64,/9j/surprise");
    Resume 0;
    Settle 1 (Resolved "data:image/jpeg;base64,/9j/anger");
    Resume 1;
    Settle 1 (Resolved "data:image/jpeg;base64,/9j/confused");
    Resume 1;
    Settle 0 (Resolved "data:image/jpeg;base64,/9j/love");
    Resume 0;
    Join ].

Definition sampleSuccess : Pipeline :=
  default sampleStart (run sampleSuccessEvents sampleStart).
(** * Properties *)

Local Close Scope Q_scope.

(** ** Objects *)

Section ObjFacts.
Context {V : Type}.
Implicit Types (o : Obj.t V) (k : string) (v : V).

Lemma obj_get_set_eq o k v : Obj.get (Obj.set o k v) k = Some v.
Proof.
  induction o as [|[k' v'] o IH]; simpl.
  - by rewrite decide_True.
  - destruct (decide (k' = k)) as [->|Hne]; simpl.
    + by rewrite decide_True.
    + by rewrite decide_False.
Qed.

Lemma obj_get_set_ne o k k' v :
  k ≠ k' → Obj.get (Obj.set o k v) k' = Obj.get o k'.
Proof.
  intros Hne. induction o as [|[k0 v0] o IH]; simpl.
  - by rewrite decide_False.
  - destruct (decide (k0 = k)) as [->|Hne0]; simpl.
    + by rewrite !decide_False.
    + by rewrite IH.
Qed.

Lemma obj_get_set o k k' v :
  Obj.get (Obj.set o k v) k' = if decide (k = k') then Some v else Obj.get o k'.
Proof.
  destruct (decide (k = k')) as [->|Hne].
  - apply obj_get_set_eq.
  - by apply obj_get_set_ne.
Qed.

Lemma obj_set_Forall (P : string * V → Prop) o k v :
  Forall P o → P (k, v) → Forall P (Obj.set o k v).
Proof.
  intros Ho Hv. induction Ho as [|[k' v'] o Hx Ho IH]; simpl.
  - by constructor.
  - destruct (decide (k' = k)); by constructor.
Qed.

Lemma obj_keys_set_in o k v :
  k ∈ Obj.keys o → Obj.keys (Obj.set o k v) = Obj.keys o.
Proof.
  unfold Obj.keys. induction o as [|[k' v'] o IH]; simpl.
  - by intros ?%elem_of_nil.
  - intros Hin. destruct (decide (k' = k)) as [->|Hne]; csimpl; [done|].
    f_equal. apply IH. by apply elem_of_cons in Hin as [->|].
Qed.

Lemma obj_keys_set_notin o k v :
  k ∉ Obj.keys o → Obj.keys (Obj.set o k v) = Obj.keys o ++ [k].
Proof.
  unfold Obj.keys. induction o as [|[k' v'] o IH]; simpl; [done|].
  intros Hnin. apply not_elem_of_cons in Hnin as [Hne Hnin].
  rewrite decide_False by done. csimpl. by rewrite IH.
Qed.

Lemma obj_keys_set_NoDup o k v :
  NoDup (Obj.keys o) → NoDup (Obj.keys (Obj.set o k v)).
Proof.
  intros Hnd. destruct (decide (k ∈ Obj.keys o)) as [Hin|Hnin].
  - by rewrite obj_keys_set_in.
  - rewrite obj_keys_set_notin by done.
    apply NoDup_app. split_and!; [done| |apply NoDup_singleton].
    intros x Hx ->%list_elem_of_singleton. done.
Qed.

Lemma obj_keys_set_elem o k v k' :
  k' ∈ Obj.keys (Obj.set o k v) ↔ k' = k ∨ k' ∈ Obj.keys o.
Proof.
  destruct (decide (k ∈ Obj.keys o)) as [Hin|Hnin].
  - rewrite obj_keys_set_in by done.
    split; [by right|]. by intros [->|?].
  - rewrite obj_keys_set_notin by done.
    rewrite elem_of_app, list_elem_of_singleton. tauto.
Qed.

Lemma obj_get_Some_elem o k v : Obj.get o k = Some v → (k, v) ∈ o.
Proof.
  induction o as [|[k' v'] o IH]; simpl; [done|].
  destruct (decide (k' = k)) as [->|Hne].
  - intros [= ->]. apply elem_of_cons. by left.
  - intros H. apply elem_of_cons. right. by apply IH.
Qed.

Lemma obj_get_is_Some o k : is_Some (Obj.get o k) ↔ k ∈ Obj.keys o.
Proof.
  unfold Obj.keys. induction o as [|[k' v'] o IH]; simpl.
  - split; [by intros [? ?]|by intros ?%elem_of_nil].
  - destruct (decide (k' = k)) as [->|Hne].
    + split; [intros _; apply elem_of_cons; by left|by eauto].
    + rewrite IH, elem_of_cons.
      split; [by right|]. by intros [->|?].
Qed.

Lemma obj_elem_get_NoDup o k v :
  NoDup (Obj.keys o) → (k, v) ∈ o → Obj.get o k = Some v.
Proof.
  unfold Obj.keys. induction o as [|[k' v'] o IH]; simpl.
  - by intros _ ?%elem_of_nil.
  - intros [Hnin Hnd]%NoDup_cons [Heq|Hin]%elem_of_cons.
    + injection Heq as -> ->. by rewrite decide_True.
    + rewrite decide_False; [by apply IH|].
      intros ->. apply Hnin. by apply (list_elem_of_fmap_2 fst _ (k, v)).
Qed.

End ObjFacts.

(** ** The worker pool *)

Lemma removeFirst_perm l ls : l ∈ ls → ls ≡ₚ l :: removeFirst l ls.
Proof.
  induction ls as [|x ls IH]; simpl.
  - by intros ?%elem_of_nil.
  - destruct (decide (x = l)) as [->|Hne]; [done|].
    intros [->|Hin]%elem_of_cons; [done|].
    rewrite (IH Hin) at 1. apply Permutation_swap.
Qed.

(** Replacing worker [w] changes the awaited labels at one place only. *)
Lemma awaited_insert (ws : list Worker) (w : nat) (x y : Worker) :
  ws !! w = Some x →
  ∃ before after,
    omap awaitedLabel ws = before ++ option_list (awaitedLabel x) ++ after
    ∧ omap awaitedLabel (<[w := y]> ws)
      = before ++ option_list (awaitedLabel y) ++ after.
Proof.
  intros Hw.
  exists (omap awaitedLabel (take w ws)), (omap awaitedLabel (drop (S w) ws)).
  split.
  - rewrite <- (take_drop_middle ws w x Hw) at 1.
    rewrite omap_app. f_equal. simpl. by destruct (awaitedLabel x).
  - rewrite insert_take_drop by (by eapply lookup_lt_Some).
    rewrite omap_app. f_equal. simpl. by destruct (awaitedLabel y).
Qed.

Lemma elem_of_insert_inv (ws : list Worker) (w : nat) (x y : Worker) :
  x ∈ <[w := y]> ws → x = y ∨ x ∈ ws.
Proof.
  intros Hin. destruct (decide (w < length ws)) as [Hlt|Hge].
  - rewrite insert_take_drop in Hin by done.
    apply elem_of_app in Hin as [Hin|Hin].
    + right. rewrite <- (take_drop w ws). apply elem_of_app. by left.
    + apply elem_of_cons in Hin as [->|Hin]; [by left|].
      right. rewrite <- (take_drop (S w) ws). apply elem_of_app. by right.
  - right. by rewrite list_insert_ge in Hin by lia.
Qed.

Lemma invariant_start emotions a s0 :
  handleGenerateClick_start emotions a = Some s0 → invariant emotions s0.
Proof.
  unfold handleGenerateClick_start. destruct (uploadedImage a); [|done].
  intros [= <-]. split; simpl; try done.
  - by intros l ?%elem_of_nil.
  - intros Hin. exfalso. unfold concurrencyLimit in Hin. simpl in Hin.
    repeat (apply elem_of_cons in Hin as [Hin|Hin]; [done|]).
    by apply elem_of_nil in Hin.
Qed.

Lemma invariant_resume emotions w s s' :
  invariant emotions s → resume w s = Some s' → invariant emotions s'.
Proof.
  intros [Hpool Hout Hfifo Hset Hterm Hdr Hj]. unfold resume.
  destruct (workers s !! w) as [[| |]|] eqn:Hw; try done.
  destruct (awaited_insert (workers s) w Ready Finished Hw)
    as (b1 & a1 & Hold1 & Hnew1).
  destruct (emotionsQueue s) as [|emotion rest] eqn:Hq; intros [= <-].
  - split; simpl; try done.
    + by rewrite length_insert.
    + simpl in Hold1, Hnew1. by rewrite Hnew1, <- Hold1.
    + intros H. apply Hj in H.
      eapply Forall_lookup_1 in H; [|exact Hw]. done.
  - destruct (awaited_insert (workers s) w Ready (Awaiting emotion) Hw)
      as (b2 & a2 & Hold2 & Hnew2).
    split; simpl.
    + by rewrite length_insert.
    + simpl in Hold2, Hnew2. rewrite Hnew2, Hout, Hold2.
      apply Permutation_middle.
    + rewrite fmap_app, <- Hfifo, <- app_assoc. done.
    + rewrite fmap_app. simpl. rewrite <- Hset.
      rewrite <- app_assoc. apply Permutation_app_head.
      apply Permutation_cons_append.
    + done.
    + intros [?|Hin]%elem_of_insert_inv; [done|]. by apply Hdr in Hin.
    + intros H. apply Hj in H.
      eapply Forall_lookup_1 in H; [|exact Hw]. done.
Qed.

Lemma writeSettled_get lbl o prev k :
  Obj.get (writeSettled lbl o prev) k
  = if decide (lbl = k)
    then Some (match o with
               | Resolved resultUrl => doneEntry resultUrl
               | Rejected err => errorEntry (errorMessage err)
               end)
    else Obj.get prev k.
Proof. destruct o; apply obj_get_set. Qed.

Lemma invariant_settle emotions w o s s' :
  invariant emotions s → settle w o s = Some s' → invariant emotions s'.
Proof.
  intros [Hpool Hout Hfifo Hset Hterm Hdr Hj]. unfold settle.
  destruct (workers s !! w) as [[|emotion|]|] eqn:Hw; try done.
  intros [= <-].
  destruct (awaited_insert (workers s) w (Awaiting emotion) Ready Hw)
    as (b & a & Hold & Hnew).
  simpl in Hold, Hnew.
  assert (Hin : label emotion ∈ outstanding s).
  { rewrite Hout, Hold. apply elem_of_app. right. apply elem_of_cons. by left. }
  pose proof (removeFirst_perm _ _ Hin) as Hrm.
  split; simpl.
  - by rewrite length_insert.
  - rewrite Hnew. apply (Permutation_cons_inv (a := label emotion)).
    rewrite <- Hrm, Hout, Hold. symmetry. apply Permutation_middle.
  - done.
  - rewrite fmap_app. simpl. rewrite <- Hset, <- app_assoc. simpl.
    apply Permutation_app_head. exact (Permutation_sym Hrm).
  - intros l. rewrite fmap_app, elem_of_app. simpl.
    rewrite list_elem_of_singleton, writeSettled_get.
    destruct (decide (label emotion = l)) as [Heq|Hne].
    + intros _. eexists. split; [done|]. destruct o; [by left|by right].
    + intros [Hl| ->]; [by apply Hterm|done].
  - intros [?|Hfin]%elem_of_insert_inv; [done|]. by apply Hdr.
  - intros H. apply Hj in H.
    eapply Forall_lookup_1 in H; [|exact Hw]. done.
Qed.

Lemma forallb_isFinished ws :
  forallb isFinished ws = true ↔ Forall (fun w => w = Finished) ws.
Proof.
  induction ws as [|w ws IH]; simpl.
  - split; [by constructor|done].
  - rewrite andb_true_iff, IH, Forall_cons.
    destruct w; simpl; intuition congruence.
Qed.

Lemma invariant_join emotions s s' :
  invariant emotions s → join s = Some s' → invariant emotions s'.
Proof.
  intros [Hpool Hout Hfifo Hset Hterm Hdr Hj]. unfold join.
  destruct (forallb isFinished (workers s)) eqn:Hall; simpl; [|done].
  destruct (joined s); simpl; [done|]. intros [= <-].
  split; simpl; try done. intros _. by apply forallb_isFinished.
Qed.

Lemma invariant_step emotions ev s s' :
  invariant emotions s → step ev s = Some s' → invariant emotions s'.
Proof.
  destruct ev; simpl;
    eauto using invariant_resume, invariant_settle, invariant_join.
Qed.

Lemma invariant_run emotions evs s s' :
  invariant emotions s → run evs s = Some s' → invariant emotions s'.
Proof.
  revert s. induction evs as [|ev evs IH]; simpl; intros s Hinv.
  - by intros [= <-].
  - destruct (step ev s) as [s1|] eqn:Hstep; [|done].
    apply IH. by eapply invariant_step.
Qed.

Lemma invariant_reachable emotions a s :
  reachable emotions a s → invariant emotions s.
Proof.
  intros (s0 & evs & Hstart & Hrun).
  eapply invariant_run; [|exact Hrun]. by eapply invariant_start.
Qed.

(** *** Counting *)

Lemma count_fmap {A} (f : A → string) (x : string) (l : list A) :
  length (filter (fun a => f a = x) l)
  = length (filter (fun b => b = x) (f <$> l)).
Proof.
  induction l as [|a l IH]; [done|]. csimpl.
  rewrite !filter_cons. destruct (decide (f a = x)); simpl; by rewrite IH.
Qed.

Lemma count_notin (x : string) (l : list string) :
  x ∉ l → length (filter (fun b => b = x) l) = 0.
Proof.
  induction l as [|y l IH]; [done|].
  intros [Hne Hnin]%not_elem_of_cons. rewrite filter_cons.
  rewrite decide_False by done. by apply IH.
Qed.

Lemma count_NoDup (x : string) (l : list string) :
  NoDup l → x ∈ l → length (filter (fun b => b = x) l) = 1.
Proof.
  induction 1 as [|y l Hnin Hnd IH]; [by intros ?%elem_of_nil|].
  rewrite filter_cons. intros [->|Hin]%elem_of_cons.
  - rewrite decide_True by done. simpl. by rewrite count_notin.
  - rewrite decide_False; [by apply IH|]. intros ->. done.
Qed.

(** *** Every step uses up one unit of [fuel] *)

Lemma filter_length_insert (P : Worker → Prop) `{!∀ w, Decision (P w)}
    (ws : list Worker) (w : nat) (x y : Worker) :
  ws !! w = Some x →
  length (filter P (<[w := y]> ws)) + (if decide (P x) then 1 else 0)
  = length (filter P ws) + (if decide (P y) then 1 else 0).
Proof.
  intros Hw. rewrite insert_take_drop by (by eapply lookup_lt_Some).
  rewrite <- (take_drop_middle ws w x Hw) at 3.
  rewrite !filter_app, !filter_cons, !length_app.
  destruct (decide (P x)), (decide (P y)); simpl; lia.
Qed.

Local Ltac count_workers H1 H2 :=
  simpl in H1, H2; repeat case_decide; try done; lia.

Lemma resume_fuel w s s' : resume w s = Some s' → fuel s = S (fuel s').
Proof.
  unfold resume, fuel.
  destruct (workers s !! w) as [[| |]|] eqn:Hw; try done.
  destruct (emotionsQueue s) as [|emotion rest]; intros [= <-]; simpl.
  - pose proof (filter_length_insert (fun w => isAwaiting w = true)
                  _ _ _ Finished Hw) as H1.
    pose proof (filter_length_insert (fun w => isFinished w = false)
                  _ _ _ Finished Hw) as H2.
    count_workers H1 H2.
  - pose proof (filter_length_insert (fun w => isAwaiting w = true)
                  _ _ _ (Awaiting emotion) Hw) as H1.
    pose proof (filter_length_insert (fun w => isFinished w = false)
                  _ _ _ (Awaiting emotion) Hw) as H2.
    count_workers H1 H2.
Qed.

Lemma settle_fuel w o s s' : settle w o s = Some s' → fuel s = S (fuel s').
Proof.
  unfold settle, fuel.
  destruct (workers s !! w) as [[|emotion|]|] eqn:Hw; try done.
  intros [= <-]; simpl.
  pose proof (filter_length_insert (fun w => isAwaiting w = true)
                _ _ _ Ready Hw) as H1.
  pose proof (filter_length_insert (fun w => isFinished w = false)
                _ _ _ Ready Hw) as H2.
  count_workers H1 H2.
Qed.

Lemma join_fuel s s' : join s = Some s' → fuel s = S (fuel s').
Proof.
  unfold join, fuel. destruct (forallb isFinished (workers s)); [|done].
  destruct (joined s); [done|]. intros [= <-]; simpl. lia.
Qed.

Lemma step_fuel ev s s' : step ev s = Some s' → fuel s = S (fuel s').
Proof. destruct ev; simpl; eauto using resume_fuel, settle_fuel, join_fuel. Qed.

Lemma run_fuel evs s s' : run evs s = Some s' → fuel s = length evs + fuel s'.
Proof.
  revert s. induction evs as [|ev evs IH]; simpl; intros s.
  - by intros [= <-].
  - destruct (step ev s) as [s1|] eqn:Hstep; [|done].
    intros Hrun. apply step_fuel in Hstep. apply IH in Hrun. lia.
Qed.

(** *** Every run can be driven to its end *)

Lemma firstMove_Some oracle ws i ev :
  firstMove oracle ws i = Some ev →
  ∃ j, (ev = Resume (i + j) ∧ ws !! j = Some Ready)
       ∨ (∃ emotion, ev = Settle (i + j) (oracle (label emotion))
                     ∧ ws !! j = Some (Awaiting emotion)).
Proof.
  revert i. induction ws as [|[|emotion|] ws IH]; simpl; intros i; [done|..].
  - intros [= <-]. exists 0. left. by rewrite Nat.add_0_r.
  - intros [= <-]. exists 0. right. exists emotion. by rewrite Nat.add_0_r.
  - intros (j & Hj)%IH. exists (S j).
    replace (i + S j) with (S i + j) by lia. exact Hj.
Qed.

Lemma firstMove_None oracle ws i :
  firstMove oracle ws i = None → Forall (fun w => w = Finished) ws.
Proof.
  revert i. induction ws as [|[|emotion|] ws IH]; simpl; intros i; try done.
  intros H. constructor; [done|]. by eapply IH.
Qed.

Lemma nextEvent_enabled oracle s ev :
  nextEvent oracle s = Some ev → is_Some (step ev s).
Proof.
  unfold nextEvent. destruct (firstMove oracle (workers s) 0) as [ev'|] eqn:Hm.
  - intros [= <-]. apply firstMove_Some in Hm as (j & [[-> Hj]|(e & -> & Hj)]);
      simpl.
    + unfold resume. rewrite Hj. by destruct (emotionsQueue s).
    + unfold settle. by rewrite Hj.
  - destruct (joined s) eqn:Hjoined; [done|]. intros [= <-]. simpl.
    unfold join. apply firstMove_None, forallb_isFinished in Hm.
    by rewrite Hm, Hjoined.
Qed.

Lemma nextEvent_None oracle s :
  nextEvent oracle s = None →
  joined s = true ∧ Forall (fun w => w = Finished) (workers s).
Proof.
  unfold nextEvent. destruct (firstMove oracle (workers s) 0) eqn:Hm; [done|].
  destruct (joined s); [|done]. intros _. split; [done|].
  by eapply firstMove_None.
Qed.

Lemma schedule_settles oracle n s :
  fuel s ≤ n →
  ∃ s', run (schedule oracle n s) s = Some s' ∧ joined s' = true.
Proof.
  revert s. induction n as [|n IH]; intros s Hfuel; simpl.
  - destruct (nextEvent oracle s) as [ev|] eqn:Hnext.
    + destruct (nextEvent_enabled _ _ _ Hnext) as [s1 Hstep].
      apply step_fuel in Hstep. lia.
    + exists s. split; [done|]. by apply nextEvent_None in Hnext as [? _].
  - destruct (nextEvent oracle s) as [ev|] eqn:Hnext.
    + destruct (nextEvent_enabled _ _ _ Hnext) as [s1 Hstep].
      rewrite Hstep. simpl. rewrite Hstep.
      apply IH. apply step_fuel in Hstep. lia.
    + exists s. split; [done|]. by apply nextEvent_None in Hnext as [? _].
Qed.

(** A run never stalls: while it has not settled, some event is enabled. *)
Lemma pipeline_progress s :
  joined s = false → ∃ ev s', step ev s = Some s'.
Proof.
  intros Hj. destruct (nextEvent (fun _ => Resolved "") s) as [ev|] eqn:Hnext.
  - destruct (nextEvent_enabled _ _ _ Hnext) as [s' Hs']. by exists ev, s'.
  - apply nextEvent_None in Hnext as [? _]. congruence.
Qed.

Lemma start_fuel emotions a s0 :
  handleGenerateClick_start emotions a = Some s0 →
  fuel s0 = 2 * length emotions + 3.
Proof.
  unfold handleGenerateClick_start. destruct (uploadedImage a); [|done].
  intros [= <-]. unfold fuel. simpl. lia.
Qed.

(** *** What a settled run has done *)

Lemma settled_facts emotions s :
  invariant emotions s → joined s = true →
  outstanding s = []
  ∧ req_label <$> issued s = label <$> emotions
  ∧ (transitions s).*1 ≡ₚ label <$> emotions.
Proof.
  intros [Hpool Hout Hfifo Hset Hterm Hdr Hj] Hjoined.
  specialize (Hj Hjoined).
  assert (Hnone : omap awaitedLabel (workers s) = []).
  { clear -Hj. induction Hj as [|w ws -> _ IH]; [done|]. exact IH. }
  assert (Hq : emotionsQueue s = []).
  { apply Hdr. destruct (workers s) as [|w ws]; [done|].
    apply Forall_cons in Hj as [-> _]. apply elem_of_cons. by left. }
  rewrite Hnone in Hout. apply Permutation_nil_r in Hout.
  rewrite Hq in Hfifo. simpl in Hfifo. rewrite app_nil_r in Hfifo.
  rewrite Hout, app_nil_r, Hfifo in Hset. done.
Qed.

(** C1.  A run of [handleGenerateClick] over a list of emotions with
    pairwise distinct labels can always be driven until
    [Promise.all(workers)] has resolved, and in every run that has got
    there each label has an entry whose status is done or error, was sent
    exactly one request and was given exactly one terminal write. *)
Theorem pipeline_settles_terminal emotions a s0 :
  NoDup (label <$> emotions) →
  handleGenerateClick_start emotions a = Some s0 →
  (∀ oracle, ∃ s,
      run (schedule oracle (fuel s0) s0) s0 = Some s ∧ joined s = true)
  ∧ (∀ evs s,
       run evs s0 = Some s → joined s = true →
       ∀ e, e ∈ emotions →
         (∃ g, Obj.get (generatedImages (app s)) (label e) = Some g
               ∧ terminal (status g))
         ∧ requestsFor (label e) s = 1
         ∧ transitionsFor (label e) s = 1).
Proof.
  intros Hnd Hstart. split.
  - intros oracle. by apply schedule_settles.
  - intros evs s Hrun Hjoined e He.
    assert (Hinv : invariant emotions s).
    { eapply invariant_run; [|exact Hrun]. by eapply invariant_start. }
    destruct (settled_facts _ _ Hinv Hjoined) as (Hout & Hreq & Htr).
    assert (Hl : label e ∈ label <$> emotions) by by apply list_elem_of_fmap_2.
    split_and!.
    + apply (inv_terminal _ _ Hinv). by rewrite Htr.
    + unfold requestsFor. rewrite count_fmap, Hreq. by apply count_NoDup.
    + unfold transitionsFor. rewrite (count_fmap fst).
      rewrite (Permutation_length (filter_Permutation _ _ _ Htr)).
      by apply count_NoDup.
Qed.

Lemma EMOTIONS_labels_NoDup : NoDup (label <$> EMOTIONS).
Proof. compute_done. Defined.

Lemma pipeline_settles_terminal_witness :
  NoDup (label <$> EMOTIONS)
  ∧ handleGenerateClick_start EMOTIONS sampleApp = Some sampleStart
  ∧ run sampleEvents sampleStart = Some sampleFinal
  ∧ joined sampleFinal = true
  ∧ ∀ e, e ∈ EMOTIONS →
      (∃ g, Obj.get (generatedImages (app sampleFinal)) (label e) = Some g
            ∧ terminal (status g))
      ∧ requestsFor (label e) sampleFinal = 1
      ∧ transitionsFor (label e) sampleFinal = 1.
Proof.
  split_and!; [exact EMOTIONS_labels_NoDup|vm_compute; reflexivity..|].
  refine (proj2 (pipeline_settles_terminal EMOTIONS sampleApp sampleStart
                   EMOTIONS_labels_NoDup _) sampleEvents sampleFinal _ _);
    vm_compute; reflexivity.
Defined.

Lemma length_omap_le {A B} (f : A → option B) (l : list A) :
  length (omap f l) ≤ length l.
Proof.
  induction l as [|a l IH]; [done|]. csimpl. destruct (f a); simpl; lia.
Qed.

(** C2.  In every state of a run, over any list of emotions, the requests
    sent and not yet settled are exactly those the workers are suspended
    on, so there are never more than [concurrencyLimit] = 2 of them. *)
Theorem pipeline_outstanding_bounded emotions a s :
  reachable emotions a s →
  outstanding s ≡ₚ omap awaitedLabel (workers s)
  ∧ length (workers s) = 2
  ∧ length (outstanding s) ≤ concurrencyLimit.
Proof.
  intros [Hpool Hout _ _ _ _ _]%invariant_reachable. split_and!; [done..|].
  rewrite Hout, <- Hpool. apply length_omap_le.
Qed.

Lemma pipeline_outstanding_bounded_witness :
  reachable EMOTIONS sampleApp sampleBusy
  ∧ length (outstanding sampleBusy) = 2
  ∧ outstanding sampleBusy ≡ₚ omap awaitedLabel (workers sampleBusy)
  ∧ length (workers sampleBusy) = 2
  ∧ length (outstanding sampleBusy) ≤ concurrencyLimit.
Proof.
  assert (Hreach : reachable EMOTIONS sampleApp sampleBusy).
  { exists sampleStart, [Resume 0; Resume 1]. split; vm_compute; reflexivity. }
  split_and!; [exact Hreach|reflexivity|..];
    apply (pipeline_outstanding_bounded EMOTIONS sampleApp sampleBusy Hreach).
Defined.

(** ** Writes to the results map *)

Lemma entryOk_pending : entryOk pendingEntry.
Proof. split; [by left|done]. Qed.

Lemma entryOk_done resultUrl : entryOk (doneEntry resultUrl).
Proof. split; [by right|done]. Qed.

Lemma entryOk_error msg : entryOk (errorEntry msg).
Proof. split; [by left|done]. Qed.

Lemma initialImages_pending emotions :
  Forall (fun entry => entry.2 = pendingEntry) (initialImages emotions).
Proof.
  unfold initialImages.
  assert (H : ∀ acc, Forall (fun entry : string * GeneratedImage =>
                               entry.2 = pendingEntry) acc →
              Forall (fun entry => entry.2 = pendingEntry)
                (foldl (fun acc emotion =>
                          Obj.set acc (label emotion) pendingEntry)
                       acc emotions)).
  { induction emotions as [|e emotions IH]; simpl; [done|].
    intros acc Hacc. apply IH. by apply obj_set_Forall. }
  apply H. constructor.
Qed.

Lemma initialImages_keys emotions l :
  l ∈ Obj.keys (initialImages emotions) ↔ l ∈ label <$> emotions.
Proof.
  unfold initialImages.
  assert (H : ∀ acc : Obj.t GeneratedImage,
            l ∈ Obj.keys (foldl (fun acc emotion =>
                                   Obj.set acc (label emotion) pendingEntry)
                                acc emotions)
            ↔ l ∈ Obj.keys acc ∨ l ∈ label <$> emotions).
  { induction emotions as [|e emotions IH]; intros acc; csimpl.
    - rewrite elem_of_nil. tauto.
    - rewrite IH, obj_keys_set_elem, elem_of_cons. tauto. }
  rewrite H. unfold Obj.keys, Obj.empty. csimpl. rewrite elem_of_nil. tauto.
Qed.

Lemma initialImages_ok emotions : resultsOk (initialImages emotions).
Proof.
  eapply Forall_impl; [apply initialImages_pending|].
  intros [k g] ->. apply entryOk_pending.
Qed.

(** C3.  Each of the four writes to the results map keeps every entry with
    at most one of [url] and [error] set, and none of them while pending.
    The done, error and pending writes replace the whole entry of their
    label and leave every other label as it was; the initial write makes a
    fresh map of pending entries. *)
Theorem results_write_preserves_invariant
    (w : ResultsWrite) (prev : Obj.t GeneratedImage) :
  resultsOk prev →
  resultsOk (applyWrite w prev)
  ∧ match writeTarget w with
    | Some (lbl, entry) =>
        ∀ k, Obj.get (applyWrite w prev) k
             = if decide (lbl = k) then Some entry else Obj.get prev k
    | None =>
        Forall (fun entry => entry.2 = pendingEntry) (applyWrite w prev)
    end.
Proof.
  intros Hprev. destruct w as [emotions|lbl resultUrl|lbl err|lbl]; simpl.
  - split; [apply initialImages_ok|apply initialImages_pending].
  - split; [|intros k; apply obj_get_set].
    apply obj_set_Forall; [done|apply entryOk_done].
  - split; [|intros k; apply obj_get_set].
    apply obj_set_Forall; [done|apply entryOk_error].
  - split; [|intros k; apply obj_get_set].
    apply obj_set_Forall; [done|apply entryOk_pending].
Qed.

Lemma results_write_preserves_invariant_witness :
  let prev := generatedImages (app sampleFinal) in
  let lbl := "Í¥ëÍ¥ë Ïö∞Îü≠" in
  resultsOk prev
  ∧ resultsOk (applyWrite (WPending lbl) prev)
  ∧ ∀ k, Obj.get (applyWrite (WPending lbl) prev) k
         = if decide (lbl = k) then Some pendingEntry else Obj.get prev k.
Proof.
  intros prev lbl.
  assert (Hprev : resultsOk prev).
  { vm_compute.
    repeat (apply Forall_cons_2;
            [split; [first [by left|by right]|by intros [=]]|]).
    apply Forall_nil_2. }
  split; [exact Hprev|].
  exact (results_write_preserves_invariant (WPending lbl) prev Hprev).
Defined.

(** The pipeline and the regenerate handler change the results map through
    these writes only. *)
Lemma step_writes ev s s' :
  step ev s = Some s' →
  generatedImages (app s') = generatedImages (app s)
  ∨ ∃ w, generatedImages (app s') = applyWrite w (generatedImages (app s)).
Proof.
  destruct ev as [w|w o|]; simpl.
  - unfold resume. destruct (workers s !! w) as [[| |]|]; try done.
    destruct (emotionsQueue s); intros [= <-]; by left.
  - unfold settle. destruct (workers s !! w) as [[|emotion|]|]; try done.
    intros [= <-]. right. destruct o as [resultUrl|err].
    + by exists (WDone (label emotion) resultUrl).
    + by exists (WError (label emotion) err).
  - unfold join. destruct (_ && _); [|done]. intros [= <-]. by left.
Qed.

Lemma applyWrite_resultsOk w prev :
  resultsOk prev → resultsOk (applyWrite w prev).
Proof.
  intros Hprev. destruct w as [emotions|lbl resultUrl|lbl err|lbl]; simpl.
  - apply initialImages_ok.
  - apply obj_set_Forall; [done|apply entryOk_done].
  - apply obj_set_Forall; [done|apply entryOk_error].
  - apply obj_set_Forall; [done|apply entryOk_pending].
Qed.

Lemma reachable_resultsOk emotions a s :
  reachable emotions a s → resultsOk (generatedImages (app s)).
Proof.
  intros (s0 & evs & Hstart & Hrun).
  assert (H0 : resultsOk (generatedImages (app s0))).
  { unfold handleGenerateClick_start in Hstart.
    destruct (uploadedImage a); [|done]. injection Hstart as <-.
    apply initialImages_ok. }
  clear Hstart. revert s0 H0 Hrun.
  induction evs as [|ev evs IH]; simpl; intros s0 H0.
  - by intros [= <-].
  - destruct (step ev s0) as [s1|] eqn:Hstep; [|done].
    apply IH. destruct (step_writes _ _ _ Hstep) as [->|[w ->]]; [done|].
    by apply applyWrite_resultsOk.
Qed.

Lemma regenerate_writes emotions lbl o a :
  (let a' := (handleRegenerateEmotion_start emotions lbl a).1 in
   generatedImages a' = generatedImages a
   ∨ generatedImages a' = applyWrite (WPending lbl) (generatedImages a))
  ∧ ∃ w, generatedImages (handleRegenerateEmotion_settle lbl o a)
         = applyWrite w (generatedImages a).
Proof.
  split.
  - unfold handleRegenerateEmotion_start.
    destruct (uploadedImage a); [|by left].
    destruct (findEmotion emotions lbl); [|by left].
    destruct (isPending (generatedImages a) lbl); [by left|by right].
  - destruct o as [resultUrl|err].
    + by exists (WDone lbl resultUrl).
    + by exists (WError lbl err).
Qed.

(** ** Regenerate *)

(** C4.  Called for a label whose entry is pending, the regenerate handler
    returns at its guard: no request is sent and the whole application
    state, the results map included, is what it was. *)
Theorem regenerate_pending_noop emotions lbl a g :
  Obj.get (generatedImages a) lbl = Some g →
  status g = StPending →
  handleRegenerateEmotion_start emotions lbl a = (a, None).
Proof.
  intros Hget Hst. unfold handleRegenerateEmotion_start.
  destruct (uploadedImage a); [|done].
  destruct (findEmotion emotions lbl); [|done].
  unfold isPending. rewrite Hget. destruct g as [st u msg]. simpl in Hst.
  by rewrite Hst.
Qed.

Lemma regenerate_pending_noop_witness :
  let a := app sampleBusy in
  let lbl := "ÌïµÏù∏Ïã∏ ÏõÉÏùå" in
  Obj.get (generatedImages a) lbl = Some pendingEntry
  ∧ status pendingEntry = StPending
  ∧ handleRegenerateEmotion_start EMOTIONS lbl a = (a, None).
Proof.
  intros a lbl. split_and!; [vm_compute; reflexivity|reflexivity|].
  apply (regenerate_pending_noop EMOTIONS lbl a pendingEntry);
    vm_compute; reflexivity.
Defined.

(** On an entry that is not pending the handler does send one request,
    after resetting the entry. *)
Lemma regenerate_terminal_requests emotions lbl a img emotionItem g :
  uploadedImage a = Some img →
  findEmotion emotions lbl = Some emotionItem →
  Obj.get (generatedImages a) lbl = Some g →
  terminal (status g) →
  handleRegenerateEmotion_start emotions lbl a
  = (setGeneratedImages (writePending lbl) a,
     Some {| req_label := lbl; req_image := img;
             req_prompt := prompt_of emotionItem |}).
Proof.
  intros Himg Hfind Hget Hst. unfold handleRegenerateEmotion_start.
  rewrite Himg, Hfind. unfold isPending. rewrite Hget.
  destruct g as [[| |] u msg]; simpl in *; try done.
  by destruct Hst.
Qed.

(** ** Failures *)



(** ** The compositor *)

Section CompositorFacts.
Variable decode : string → option (Z * Z).
Variable random : nat → Q.

Lemma painted_app l1 l2 : painted (l1 ++ l2) = painted l1 ++ painted l2.
Proof. apply omap_app. Qed.

Lemma painted_Draw (ops : list DrawOp) : painted (Draw <$> ops) = ops.
Proof. induction ops as [|op ops IH]; [done|]. csimpl. by rewrite IH. Qed.

Lemma painted_LoadStart (urls : list string) : painted (LoadStart <$> urls) = [].
Proof. induction urls as [|u urls IH]; [done|]. csimpl. exact IH. Qed.

Lemma loadImage_run s log :
  loadImage decode s log = (log ++ [LoadStart s], inr (s, loaded decode s)).
Proof. reflexivity. Qed.

Lemma mapM_loadImage urls log :
  mapM (loadImage decode) urls log
  = (log ++ (LoadStart <$> urls),
     inr ((fun s => (s, loaded decode s)) <$> urls)).
Proof.
  revert log. induction urls as [|u urls IH]; intros log; csimpl.
  - unfold ret. by rewrite app_nil_r.
  - unfold bind. rewrite loadImage_run, IH. unfold ret.
    by rewrite <- app_assoc.
Qed.

Lemma rejectedSrcs_mapM (urls : list string) :
  rejectedSrcs ((fun s => (s, loaded decode s)) <$> urls)
  = List.filter (fun s => bool_decide (decode s = None)) urls.
Proof.
  unfold rejectedSrcs. induction urls as [|u urls IH]; [done|]. csimpl.
  rewrite IH. unfold loaded. by destruct (decode u) as [[w h]|].
Qed.

Lemma resolved_mapM (urls : list string) :
  omap snd ((fun s => (s, loaded decode s)) <$> urls)
  = omap (loaded decode) urls.
Proof.
  induction urls as [|u urls IH]; [done|]. csimpl. by rewrite IH.
Qed.

Lemma drawCard_log entry index log :
  drawCard random entry index log
  = (log ++ (Draw <$> cardOps random entry index), inr tt).
Proof.
  destruct entry as [lbl img]. unfold cardOps, drawCard, bind, draw, emit.
  simpl. by rewrite <- !app_assoc.
Qed.

Lemma forEachFrom_drawCard entries index log :
  forEachFrom (drawCard random) entries index log
  = (log ++ (Draw <$> cardsFrom random entries index), inr tt).
Proof.
  revert index log.
  induction entries as [|entry entries IH]; intros index log; simpl.
  - unfold ret. by rewrite app_nil_r.
  - unfold bind. rewrite drawCard_log, IH.
    by rewrite fmap_app, <- app_assoc.
Qed.

(** The whole call, event by event. *)
Lemma createAlbumPage_unfold imageData :
  createAlbumPage true decode random imageData []
  = let urls := Obj.values imageData in
    let before := preludeLog ++ (LoadStart <$> urls) ++ [AwaitLoads] in
    match List.filter (fun s => bool_decide (decode s = None)) urls with
    | [] =>
        let entries := zip (Obj.keys imageData) (omap (loaded decode) urls) in
        (before ++ (Draw <$> cardsFrom random entries 0),
         inr (Jpeg 0.9 (painted preludeLog ++ cardsFrom random entries 0)))
    | srcs => (before, inl (LoadFailed srcs))
    end.
Proof.
  unfold createAlbumPage. unfold bind at 1. unfold ret at 1.
  unfold bind at 1.
  change (paintBackground []) with
    ((paintBackground [] ).1, @inr Exn unit tt).
  cbv beta iota. unfold bind at 1.
  change (paintTitle (paintBackground []).1) with (preludeLog, @inr Exn unit tt).
  cbv beta iota. unfold bind at 1. rewrite mapM_loadImage.
  unfold bind at 1. unfold awaitAll, bind at 1, emit.
  rewrite rejectedSrcs_mapM, resolved_mapM. cbv zeta.
  destruct (List.filter _ _) as [|u srcs] eqn:Hrej.
  - unfold ret at 1. unfold bind. rewrite forEachFrom_drawCard.
    unfold toDataURL. rewrite <- !app_assoc. f_equal. f_equal. f_equal.
    rewrite !painted_app, painted_LoadStart, painted_Draw. done.
  - unfold throw. by rewrite <- !app_assoc.
Qed.

End CompositorFacts.

Lemma filter_nil_Forall {A} (p : A → bool) (l : list A) :
  List.filter p l = [] ↔ ∀ x, x ∈ l → p x = false.
Proof.
  induction l as [|a l IH]; simpl.
  - split; [by intros _ x ?%elem_of_nil|done].
  - destruct (p a) eqn:Hp.
    + split; [done|]. intros H. specialize (H a). rewrite Hp in H.
      discriminate H. apply elem_of_cons. by left.
    + rewrite IH. split.
      * intros H x [->|Hx]%elem_of_cons; [done|by apply H].
      * intros H x Hx. apply H, elem_of_cons. by right.
Qed.

Lemma cardsFrom_imap random entries k :
  cardsFrom random entries k
  = concat (imap (fun i entry => cardOps random entry (k + i)) entries).
Proof.
  revert k. induction entries as [|entry entries IH]; intros k; [done|].
  simpl. rewrite Nat.add_0_r. f_equal. rewrite IH. f_equal.
  apply imap_ext. intros i x _. simpl. f_equal. lia.
Qed.

(** The claim C7 as it stands does not hold: the background and the title
    are painted before the loads are even started. *)
Lemma composition_paints_before_loads :
  ¬ paintsOnlyAfterLoads
      (createAlbumPage true sampleDecode noJitter (sampleAlbum 1) []).1.
Proof.
  intros H.
  refine (H (preludeLog ++ [LoadStart "data:image/jpeg;base64,/9j/joy"])
            (Draw <$> cardsFrom noJitter
               (zip (Obj.keys (sampleAlbum 1))
                    (omap (loaded sampleDecode) (Obj.values (sampleAlbum 1))))
               0)
            _ (Draw (FillRect (Color "#09090b") 0 0 canvasWidth canvasHeight))
            _ _).
  - vm_compute. reflexivity.
  - apply elem_of_app. left. apply elem_of_cons. by left.
  - by eexists.
Qed.

(** C7, amended.  If the canvas has a context, the call paints the
    background and the title, starts the loads of all the sources one
    after the other, and only then waits for them; the commands of the
    cards all come after that wait.  If a source fails to load, no card is
    painted and the call throws: it returns no data URL.  Without a
    context it throws at once. *)
Theorem composition_fails_fast decode random imageData :
  (∃ cards result,
      createAlbumPage true decode random imageData []
      = (preludeLog ++ (LoadStart <$> Obj.values imageData)
           ++ AwaitLoads :: (Draw <$> cards),
         result)
      ∧ ((∃ u, u ∈ Obj.values imageData ∧ decode u = None) →
         cards = []
         ∧ ∃ srcs, result = inl (LoadFailed srcs)
                   ∧ ∀ u, u ∈ srcs ↔ u ∈ Obj.values imageData ∧ decode u = None)
      ∧ ((∀ u, u ∈ Obj.values imageData → decode u ≠ None) →
         result = inr (Jpeg 0.9 (painted preludeLog ++ cards))))
  ∧ createAlbumPage false decode random imageData [] = ([], inl NoContext).
Proof.
  split; [|done]. rewrite createAlbumPage_unfold. cbv zeta.
  destruct (List.filter _ _) as [|u0 srcs] eqn:Hrej.
  - eexists _, _. split.
    { f_equal. rewrite <- app_assoc. f_equal. rewrite <- app_assoc. done. }
    split.
    + intros (u & Hu & Hnone). exfalso.
      pose proof (proj1 (filter_nil_Forall _ _) Hrej u Hu) as Hf.
      by rewrite bool_decide_eq_false in Hf.
    + done.
  - exists [], (inl (LoadFailed (u0 :: srcs))).
    split; [done|]. split.
    + intros _. split; [done|]. eexists. split; [done|].
      intros u. rewrite <- Hrej, list_elem_of_In, filter_In.
      by rewrite bool_decide_eq_true, <- list_elem_of_In.
    + intros Hall. exfalso.
      assert (Hin : u0 ∈ List.filter
                (fun s => bool_decide (decode s = None))
                (Obj.values imageData)).
      { rewrite Hrej. apply elem_of_cons. by left. }
      apply list_elem_of_In, filter_In in Hin as [Hin Hd].
      apply bool_decide_eq_true in Hd. apply list_elem_of_In in Hin.
      by apply (Hall u0).
Qed.

Lemma composition_fails_fast_witness :
  (∃ u, u ∈ Obj.values sampleBrokenAlbum ∧ sampleDecode u = None)
  ∧ ∃ srcs,
      createAlbumPage true sampleDecode noJitter sampleBrokenAlbum []
      = (preludeLog ++ (LoadStart <$> Obj.values sampleBrokenAlbum)
           ++ [AwaitLoads],
         inl (LoadFailed srcs))
      ∧ ∀ u, u ∈ srcs ↔ u ∈ Obj.values sampleBrokenAlbum ∧ sampleDecode u = None.
Proof.
  assert (Hbroken : ∃ u, u ∈ Obj.values sampleBrokenAlbum
                         ∧ sampleDecode u = None).
  { exists "data:broken". split; [|reflexivity].
    apply elem_of_cons. right. apply elem_of_cons. by left. }
  split; [exact Hbroken|].
  destruct (proj1 (composition_fails_fast sampleDecode noJitter
                     sampleBrokenAlbum))
    as (cards & result & Heq & Hfail & _).
  destruct (Hfail Hbroken) as (Hcards & srcs & Hres & Hsrcs).
  exists srcs. split; [|exact Hsrcs].
  rewrite Heq, Hcards, Hres. reflexivity.
Defined.

(** *** The numbers of the layout *)

Section Layout.
Local Open Scope Q_scope.

Lemma cellWidth_val : cellWidth == 1060.
Proof. reflexivity. Qed.

Lemma cellHeight_val : cellHeight == 876.
Proof. reflexivity. Qed.

Lemma cardHeight_val : cardHeight == 3942 # 5.
Proof. reflexivity. Qed.

Lemma cardWidth_val : cardWidth == 5913 # 10.
Proof. reflexivity. Qed.

Lemma num_S n : num (S n) == num n + 1.
Proof.
  unfold num. rewrite Nat2Z.inj_succ, <- Z.add_1_r, inject_Z_plus.
  reflexivity.
Qed.

Lemma num_le n m : (n ≤ m)%nat → num n <= num m.
Proof. intros H. unfold num. rewrite <- Zle_Qle. lia. Qed.

Lemma cardY_cell index :
  cardY index = cellY (rowOf index) + (cellHeight - cardHeight) / 2.
Proof. reflexivity. Qed.

Lemma cardX_cell index :
  cardX index = cellX (colOf index) + (cellWidth - cardWidth) / 2.
Proof. reflexivity. Qed.

(** From the seventh entry on, a card starts below the last row of
    cells, and in fact below the canvas. *)
Lemma cardY_overflow index :
  (6 ≤ index)%nat → gridBottom < cardY index ∧ canvasHeight < cardY index.
Proof.
  intros Hi. assert (H3 : 3 <= num (rowOf index)).
  { change 3 with (num 3). apply num_le. unfold rowOf, grid_cols. lia. }
  assert (Hrows : num (grid_rows - 1) == 2) by reflexivity.
  unfold gridBottom, cardY, cellY, canvasHeight.
  rewrite Hrows, cellHeight_val, cardHeight_val.
  unfold contentTopMargin, grid_padding, Qdiv. change (/ 2) with (1 # 2).
  split; lra.
Qed.

End Layout.

Lemma cardOps_eq random lbl img index :
  cardOps random (lbl, img) index
  = [ Save;
      Translate (centerX index) (centerY index);
      Rotate (rotationOf random index);
      FillRoundRect (Color "#27272a")
        (- cardWidth / 2) (- cardHeight / 2) cardWidth cardHeight 40;
      Clip;
      DrawImage img
        (offX (coverFit imgWidth imgHeight img) - cardWidth / 2)
        (offY (coverFit imgWidth imgHeight img) - cardHeight / 2)
        (drawW (coverFit imgWidth imgHeight img))
        (drawH (coverFit imgWidth imgHeight img));
      FillRect (Color "#18181b")
        (- cardWidth / 2) (cardHeight / 2 - (cardHeight - imgHeight))
        cardWidth (cardHeight - imgHeight);
      FillText "60px 'Do Hyeon', sans-serif" (Color "#a3e635")
        ("#" +:+ lbl) 0 (cardHeight / 2 - (cardHeight - imgHeight) / 2);
      Restore ]%Q.
Proof. reflexivity. Qed.

(** The images of an album all of whose sources load, entry by entry. *)
Lemma loaded_entries decode (imageData : Obj.t string) :
  (∀ u, u ∈ Obj.values imageData → decode u ≠ None) →
  let entries := zip (Obj.keys imageData)
                     (omap (loaded decode) (Obj.values imageData)) in
  length entries = length imageData
  ∧ ∀ i lbl u, imageData !! i = Some (lbl, u) →
      ∃ img, entries !! i = Some (lbl, img) ∧ loaded decode u = Some img
             ∧ src img = u.
Proof.
  unfold Obj.keys, Obj.values.
  induction imageData as [|[lbl0 u0] imageData IH]; intros Hall; csimpl.
  - split; [done|]. intros i lbl u. by rewrite lookup_nil.
  - assert (Hu0 : decode u0 ≠ None).
    { apply Hall. csimpl. apply elem_of_cons. by left. }
    destruct IH as [Hlen Hlook].
    { intros u Hu. apply Hall. csimpl. apply elem_of_cons. by right. }
    assert (Hl : ∃ img, loaded decode u0 = Some img ∧ src img = u0).
    { unfold loaded. destruct (decode u0) as [[w h]|]; [|done]. by eexists. }
    destruct Hl as (img0 & Hl & Hsrc). rewrite Hl. csimpl.
    split; [by rewrite Hlen|].
    intros [|i] lbl u; csimpl.
    + intros [= -> ->]. by exists img0.
    + apply Hlook.
Qed.

Lemma createAlbumPage_loaded decode random (imageData : Obj.t string) :
  (∀ u, u ∈ Obj.values imageData → decode u ≠ None) →
  (createAlbumPage true decode random imageData []).2
  = inr (Jpeg 0.9
           (painted preludeLog
            ++ concat (imap (fun i entry => cardOps random entry i)
                         (zip (Obj.keys imageData)
                              (omap (loaded decode) (Obj.values imageData)))))).
Proof.
  intros Hall. rewrite createAlbumPage_unfold. cbv zeta.
  destruct (List.filter _ _) as [|u0 srcs] eqn:Hrej.
  - simpl. by rewrite cardsFrom_imap.
  - exfalso.
    assert (Hin : u0 ∈ List.filter (fun s => bool_decide (decode s = None))
                         (Obj.values imageData)).
    { rewrite Hrej. apply elem_of_cons. by left. }
    apply list_elem_of_In, filter_In in Hin as [Hin Hd].
    apply bool_decide_eq_true in Hd. apply list_elem_of_In in Hin.
    by apply (Hall u0).
Qed.

(** C10.  [createAlbumPage] never compares the number of entries with the
    six cells of the grid.  On the empty mapping it returns the JPEG of
    the background and the title alone.  On any mapping whose sources all
    load, however long, it returns a JPEG in which every entry has its
    card, entry [i] being painted around ([centerX i], [centerY i]), in
    row [i / 2]; from the seventh entry on the card starts below the
    lower edge of the third row of cells. *)
Theorem composition_has_no_capacity_check decode random :
  (createAlbumPage true decode random Obj.empty []).2
  = inr (Jpeg 0.9 (painted preludeLog))
  ∧ ∀ imageData : Obj.t string,
      (∀ u, u ∈ Obj.values imageData → decode u ≠ None) →
      ∃ entries,
        (createAlbumPage true decode random imageData []).2
        = inr (Jpeg 0.9
                 (painted preludeLog
                  ++ concat (imap (fun i entry => cardOps random entry i)
                               entries)))
        ∧ length entries = length imageData
        ∧ ∀ i lbl u, imageData !! i = Some (lbl, u) →
            ∃ img rest,
              entries !! i = Some (lbl, img) ∧ src img = u
              ∧ cardOps random (lbl, img) i
                = Save :: Translate (centerX i) (centerY i) :: rest
              ∧ centerY i
                = (cellY (i / 2) + (cellHeight - cardHeight) / 2
                   + cardHeight / 2)%Q
              ∧ (6 ≤ i → (gridBottom < cardY i)%Q).
Proof.
  split; [reflexivity|]. intros imageData Hall.
  destruct (loaded_entries decode imageData Hall) as [Hlen Hlook].
  eexists. split; [by apply createAlbumPage_loaded|]. split; [exact Hlen|].
  intros i lbl u Hi. destruct (Hlook i lbl u Hi) as (img & Hentry & _ & Hsrc).
  exists img. eexists. split; [exact Hentry|]. split; [exact Hsrc|].
  split; [by rewrite cardOps_eq|]. split; [reflexivity|].
  intros H6. exact (proj1 (cardY_overflow i H6)).
Qed.

Local Ltac all_load Hu :=
  repeat (apply elem_of_cons in Hu as [->|Hu]; [by vm_compute|]);
  by apply elem_of_nil in Hu.

Lemma sampleAlbum7_loads u :
  u ∈ Obj.values sampleAlbum7 → sampleDecode u ≠ None.
Proof. intros Hu. all_load Hu. Qed.

Lemma composition_has_no_capacity_check_witness :
  (∀ u, u ∈ Obj.values sampleAlbum7 → sampleDecode u ≠ None)
  ∧ length sampleAlbum7 = 7
  ∧ ∃ entries,
      (createAlbumPage true sampleDecode noJitter sampleAlbum7 []).2
      = inr (Jpeg 0.9
               (painted preludeLog
                ++ concat (imap (fun i entry => cardOps noJitter entry i)
                             entries)))
      ∧ length entries = 7
      ∧ ∃ img rest,
          entries !! 6 = Some ("extra", img)
          ∧ cardOps noJitter ("extra", img) 6
            = Save :: Translate (centerX 6) (centerY 6) :: rest
          ∧ (gridBottom < cardY 6)%Q.
Proof.
  split; [exact sampleAlbum7_loads|]. split; [reflexivity|].
  destruct (proj2 (composition_has_no_capacity_check sampleDecode noJitter)
              sampleAlbum7 sampleAlbum7_loads)
    as (entries & Hres & Hlen & Hcards).
  exists entries. split; [exact Hres|]. split; [exact Hlen|].
  destruct (Hcards 6 "extra" "data:image/jpeg;base64,/9j/extra" eq_refl)
    as (img & rest & Hentry & _ & Hops & _ & Hbelow).
  exists img, rest. split; [exact Hentry|]. split; [exact Hops|].
  apply Hbelow. lia.
Defined.

Section Grid.
Local Open Scope Q_scope.

Lemma center_in_cell index :
  centerX index == cellX (colOf index) + cellWidth / 2
  ∧ centerY index == cellY (rowOf index) + cellHeight / 2.
Proof.
  unfold centerX, centerY. rewrite cardX_cell, cardY_cell.
  split; field.
Qed.

Lemma center_right_neighbour index :
  colOf index = 0%nat →
  centerX (S index) - centerX index == cellWidth + grid_padding
  ∧ centerY (S index) == centerY index.
Proof.
  intros Hcol.
  assert (Hcol' : colOf (S index) = 1%nat).
  { unfold colOf, grid_cols in *. lia. }
  assert (Hrow : rowOf (S index) = rowOf index).
  { unfold rowOf, colOf, grid_cols in *. lia. }
  unfold centerX, centerY, cardX, cardY.
  rewrite Hcol, Hcol', Hrow. change (num 0) with 0. change (num 1) with 1.
  split; [ring|reflexivity].
Qed.

Lemma center_lower_neighbour index :
  centerY (index + 2) - centerY index == cellHeight + grid_padding
  ∧ centerX (index + 2) == centerX index.
Proof.
  assert (Hcol : colOf (index + 2) = colOf index).
  { unfold colOf, grid_cols. lia. }
  assert (Hrow : rowOf (index + 2) = S (rowOf index)).
  { unfold rowOf, grid_cols. lia. }
  unfold centerX, centerY, cardX, cardY.
  rewrite Hcol, Hrow, num_S. split; [ring|reflexivity].
Qed.

Lemma card_size :
  cardHeight == 0.9 * cellHeight ∧ cardWidth == (3 / 4) * cardHeight.
Proof. split; reflexivity. Qed.

End Grid.

(** C9.  On an album of at most 2 x 3 entries whose sources all load,
    painted with no jitter, the cards are painted in the order of the
    entries; the card of entry [i] is not rotated and is centred on the
    centre of the cell in row [i / 2], column [i mod 2]; the centre of the
    card to its right is [cellWidth + padding] further right at the same
    height, the centre of the card below it [cellHeight + padding] further
    down in the same column; a card is 0.9 times as high as a cell and 3/4
    as wide as it is high. *)
Theorem cards_follow_grid decode random (imageData : Obj.t string) :
  length imageData ≤ grid_cols * grid_rows →
  (∀ i, random i == 0.5)%Q →
  (∀ u, u ∈ Obj.values imageData → decode u ≠ None) →
  (∃ entries,
      (createAlbumPage true decode random imageData []).2
      = inr (Jpeg 0.9
               (painted preludeLog
                ++ concat (imap (fun i entry => cardOps random entry i)
                             entries)))
      ∧ ∀ i lbl u, imageData !! i = Some (lbl, u) →
          ∃ img rest,
            entries !! i = Some (lbl, img) ∧ src img = u
            ∧ cardOps random (lbl, img) i
              = Save :: Translate (centerX i) (centerY i)
                  :: Rotate (rotationOf random i)
                  :: FillRoundRect (Color "#27272a")
                       (- cardWidth / 2) (- cardHeight / 2)
                       cardWidth cardHeight 40
                  :: rest
            ∧ (rotationOf random i == 0)%Q
            ∧ rowOf i = i / 2 ∧ colOf i = i mod 2
            ∧ rowOf i < grid_rows ∧ colOf i < grid_cols
            ∧ (centerX i == cellX (colOf i) + cellWidth / 2)%Q
            ∧ (centerY i == cellY (rowOf i) + cellHeight / 2)%Q)
  ∧ (∀ i, colOf i = 0 → S i < length imageData →
          (centerX (S i) - centerX i == cellWidth + grid_padding)%Q
          ∧ (centerY (S i) == centerY i)%Q)
  ∧ (∀ i, i + 2 < length imageData →
          (centerY (i + 2) - centerY i == cellHeight + grid_padding)%Q
          ∧ (centerX (i + 2) == centerX i)%Q)
  ∧ (cardHeight == 0.9 * cellHeight)%Q
  ∧ (cardWidth == (3 / 4) * cardHeight)%Q.
Proof.
  intros Hcap Hjitter Hall. split_and!.
  - destruct (loaded_entries decode imageData Hall) as [Hlen Hlook].
    eexists. split; [by apply createAlbumPage_loaded|].
    intros i lbl u Hi.
    destruct (Hlook i lbl u Hi) as (img & Hentry & _ & Hsrc).
    apply lookup_lt_Some in Hi.
    exists img. eexists. split; [exact Hentry|]. split; [exact Hsrc|].
    split; [by rewrite cardOps_eq|]. split_and!; try reflexivity.
    + unfold rotationOf. rewrite Hjitter. reflexivity.
    + unfold rowOf, grid_cols, grid_rows in *. lia.
    + unfold colOf, grid_cols. lia.
    + exact (proj1 (center_in_cell i)).
    + exact (proj2 (center_in_cell i)).
  - intros i Hcol _. exact (center_right_neighbour i Hcol).
  - intros i _. exact (center_lower_neighbour i).
  - exact (proj1 card_size).
  - exact (proj2 card_size).
Qed.

Lemma sampleAlbum6_loads u :
  u ∈ Obj.values (sampleAlbum 6) → sampleDecode u ≠ None.
Proof. intros Hu. all_load Hu. Qed.

Lemma cards_follow_grid_witness :
  length (sampleAlbum 6) ≤ grid_cols * grid_rows
  ∧ (∀ i, noJitter i == 0.5)%Q
  ∧ (∀ u, u ∈ Obj.values (sampleAlbum 6) → sampleDecode u ≠ None)
  ∧ (centerX 1 - centerX 0 == cellWidth + grid_padding)%Q
  ∧ (centerX 3 - centerX 2 == cellWidth + grid_padding)%Q
  ∧ (centerY 2 - centerY 0 == cellHeight + grid_padding)%Q
  ∧ (centerY 5 - centerY 3 == cellHeight + grid_padding)%Q.
Proof.
  assert (Hcap : length (sampleAlbum 6) ≤ grid_cols * grid_rows)
    by (vm_compute; lia).
  assert (Hjitter : (∀ i, noJitter i == 0.5)%Q) by reflexivity.
  destruct (cards_follow_grid sampleDecode noJitter (sampleAlbum 6)
              Hcap Hjitter sampleAlbum6_loads)
    as (_ & Hright & Hbelow & _).
  split_and!; [exact Hcap|exact Hjitter|exact sampleAlbum6_loads|..].
  - apply (Hright 0); [reflexivity|vm_compute; lia].
  - apply (Hright 2); [reflexivity|vm_compute; lia].
  - apply (Hbelow 0). vm_compute; lia.
  - apply (Hbelow 3). vm_compute; lia.
Defined.

(** ** Cover fit *)

Section Cover.
Local Open Scope Q_scope.

Lemma ratio_pos (w h : Z) :
  (0 < w)%Z → (0 < h)%Z → 0 < inject_Z w / inject_Z h.
Proof.
  intros Hw Hh. apply Qlt_shift_div_l.
  - change 0 with (inject_Z 0). by rewrite <- Zlt_Qlt.
  - rewrite Qmult_0_l. change 0 with (inject_Z 0). by rewrite <- Zlt_Qlt.
Qed.

Lemma div_mul_cancel (a b : Q) : 0 < b → a / b * b == a.
Proof. intros Hb. field. intros Heq. rewrite Heq in Hb. by apply Qlt_irrefl in Hb. Qed.

(** C8.  For an image with positive natural dimensions and a target
    rectangle with positive sides: if the image is wider than the
    target (its ratio is the greater one), it is drawn as high as the
    target and at least as wide, shifted left by half the excess width,
    so that as much sticks out on the left as on the right; otherwise it
    is drawn as wide as the target and at least as high, shifted up by
    half the excess height.  Both ways the drawn size keeps the ratio of
    the image.  The compositor uses it with the image area of a card,
    [imgWidth] by [imgHeight], as target. *)
Theorem cover_fit_covers (targetW targetH : Q) (img : HTMLImageElement) :
  0 < targetW → 0 < targetH →
  (0 < naturalWidth img)%Z → (0 < naturalHeight img)%Z →
  let fit := coverFit targetW targetH img in
  let imgRatio := inject_Z (naturalWidth img) / inject_Z (naturalHeight img) in
  let targetRatio := targetW / targetH in
  drawW fit == drawH fit * imgRatio
  ∧ (targetRatio < imgRatio →
     drawH fit = targetH
     ∧ targetW <= drawW fit
     ∧ offY fit = 0
     ∧ offX fit <= 0
     ∧ - offX fit == offX fit + drawW fit - targetW)
  ∧ (imgRatio <= targetRatio →
     drawW fit = targetW
     ∧ targetH <= drawH fit
     ∧ offX fit = 0
     ∧ offY fit <= 0
     ∧ - offY fit == offY fit + drawH fit - targetH).
Proof.
  intros HW HH Hw Hh fit imgRatio targetRatio.
  assert (Hr : 0 < imgRatio) by by apply ratio_pos.
  assert (Hr0 : ¬ imgRatio == 0).
  { intros Heq. rewrite Heq in Hr. by apply Qlt_irrefl in Hr. }
  assert (Ht : targetRatio * targetH == targetW) by by apply div_mul_cancel.
  unfold fit, coverFit. fold imgRatio. fold targetRatio.
  destruct (Qle_bool imgRatio targetRatio) eqn:Hcmp; simpl.
  - apply Qle_bool_iff in Hcmp.
    assert (Hcover : targetH <= targetW / imgRatio).
    { apply Qle_shift_div_l; [done|]. rewrite <- Ht.
      rewrite (Qmult_comm targetH). apply Qmult_le_compat_r; [done|].
      by apply Qlt_le_weak. }
    split_and!.
    + field. done.
    + intros Hlt. exfalso. by apply (Qlt_not_le _ _ Hlt).
    + intros _. split_and!; try done.
      * unfold Qdiv at 1. change (/ 2) with (1 # 2). lra.
      * unfold Qdiv at 1 3. change (/ 2) with (1 # 2). lra.
  - assert (Hlt : targetRatio < imgRatio).
    { apply Qnot_le_lt. intros Hle. apply Qle_bool_iff in Hle. congruence. }
    assert (Hcover : targetW <= targetH * imgRatio).
    { rewrite <- Ht, (Qmult_comm targetH). apply Qlt_le_weak.
      by apply Qmult_lt_compat_r. }
    split_and!.
    + reflexivity.
    + intros _. split_and!; try done.
      * unfold Qdiv. change (/ 2) with (1 # 2). lra.
      * unfold Qdiv. change (/ 2) with (1 # 2). lra.
    + intros Hle. exfalso. by apply (Qlt_not_le _ _ Hlt).
Qed.

Lemma cover_fit_covers_witness :
  0 < imgWidth ∧ 0 < imgHeight
  ∧ (0 < naturalWidth sampleWide)%Z ∧ (0 < naturalHeight sampleWide)%Z
  ∧ imgWidth / imgHeight < 1600 / 900
  ∧ drawH (coverFit imgWidth imgHeight sampleWide) = imgHeight
  ∧ imgWidth <= drawW (coverFit imgWidth imgHeight sampleWide).
Proof.
  assert (HW : 0 < imgWidth) by reflexivity.
  assert (HH : 0 < imgHeight) by reflexivity.
  assert (Hw : (0 < naturalWidth sampleWide)%Z) by reflexivity.
  assert (Hh : (0 < naturalHeight sampleWide)%Z) by reflexivity.
  assert (Hwide : imgWidth / imgHeight < 1600 / 900) by reflexivity.
  destruct (cover_fit_covers imgWidth imgHeight sampleWide HW HH Hw Hh)
    as (_ & Hwider & _).
  destruct (Hwider Hwide) as (Hh' & Hw' & _).
  split_and!; assumption.
Defined.

End Cover.

(** ** Album export *)

Lemma truthy_Some u : truthy (Some u) = true ↔ u ≠ "".
Proof. destruct u; simpl; split; done. Qed.

Lemma isDoneWithUrl_spec image :
  isDoneWithUrl image = true
  ↔ status image = StDone ∧ ∃ u, url image = Some u ∧ u ≠ "".
Proof.
  unfold isDoneWithUrl. destruct image as [[| |] [u|] msg]; cbn [status url];
    try (split; [done|]; intros [? (? & ? & ?)]; done).
  rewrite truthy_Some. split.
  - intros Hu. split; [done|]. by exists u.
  - intros [_ (u' & [= <-] & Hu)]. done.
Qed.

Lemma elem_of_keys_filter {V} (p : string * V → bool) (o : Obj.t V) k :
  k ∈ Obj.keys (List.filter p o) → k ∈ Obj.keys o.
Proof.
  unfold Obj.keys. induction o as [|[k' v'] o IH]; simpl; [done|].
  destruct (p (k', v')); csimpl; rewrite !elem_of_cons;
    [intros [?|?]; [by left|right; by apply IH]
    |intros ?; right; by apply IH].
Qed.

Lemma NoDup_keys_filter {V} (p : string * V → bool) (o : Obj.t V) :
  NoDup (Obj.keys o) → NoDup (Obj.keys (List.filter p o)).
Proof.
  unfold Obj.keys. induction o as [|[k' v'] o IH]; simpl; [done|].
  intros [Hnin Hnd]%NoDup_cons. destruct (p (k', v')); csimpl; [|by apply IH].
  apply NoDup_cons. split; [|by apply IH].
  intros Hin. apply Hnin. by eapply elem_of_keys_filter.
Qed.

(** The [reduce] adds the exportable entries one by one, in order. *)
Lemma reduce_keys (l : Obj.t GeneratedImage) (acc : Obj.t string) :
  (∀ entry, entry ∈ l → isDoneWithUrl entry.2 = true) →
  NoDup (Obj.keys l) →
  (∀ k, k ∈ Obj.keys l → k ∉ Obj.keys acc) →
  Obj.keys
    (foldl (fun acc entry =>
              match url entry.2 with
              | Some u => if truthy (Some u) then Obj.set acc entry.1 u else acc
              | None => acc
              end) acc l)
  = Obj.keys acc ++ Obj.keys l.
Proof.
  revert acc. induction l as [|[k image] l IH]; intros acc Hdone Hnd Hfresh.
  - simpl. by rewrite app_nil_r.
  - assert (Himg : isDoneWithUrl image = true).
    { apply (Hdone (k, image)). apply elem_of_cons. by left. }
    apply isDoneWithUrl_spec in Himg as (_ & u & Hu & Hne).
    destruct u as [|c u']; [done|]. unfold Obj.keys in Hnd. csimpl in Hnd.
    apply NoDup_cons in Hnd as [Hk Hnd].
    cbn [foldl fst snd]. rewrite Hu. cbn [truthy]. rewrite IH.
    + rewrite obj_keys_set_notin.
      * unfold Obj.keys. csimpl. by rewrite <- app_assoc.
      * apply Hfresh. unfold Obj.keys. csimpl. apply elem_of_cons. by left.
    + intros entry He. apply Hdone, elem_of_cons. by right.
    + done.
    + intros k' Hk'. rewrite obj_keys_set_elem. intros [->|Hacc]; [done|].
      apply (Hfresh k'); [|done]. unfold Obj.keys. csimpl.
      apply elem_of_cons. by right.
Qed.

(** On a results map with one entry per key, the album input has exactly
    the labels whose entry is done with a URL, in the order of the map. *)
Lemma albumInput_keys g :
  NoDup (Obj.keys g) →
  Obj.keys (albumInput g)
  = Obj.keys (List.filter (fun entry => isDoneWithUrl entry.2) g).
Proof.
  intros Hnd. unfold albumInput, Obj.entries. rewrite reduce_keys; [done|..].
  - intros entry [_ He]%list_elem_of_In%filter_In. exact He.
  - by apply NoDup_keys_filter.
  - intros k _ Hk. by apply elem_of_nil in Hk.
Qed.

Lemma exportable_entry (g : Obj.t GeneratedImage) k :
  NoDup (Obj.keys g) →
  k ∈ Obj.keys (List.filter (fun entry => isDoneWithUrl entry.2) g) →
  ∃ image, Obj.get g k = Some image ∧ isDoneWithUrl image = true.
Proof.
  intros Hnd Hk. unfold Obj.keys in Hk.
  apply list_elem_of_fmap in Hk as ([k' image] & -> & Hin).
  apply list_elem_of_In, filter_In in Hin as [Hin Hdone].
  exists image. split; [|done].
  apply obj_elem_get_NoDup; [done|]. by apply list_elem_of_In.
Qed.

(** C6.  On a results map with one entry per label: the handler never
    changes the map; while fewer entries than there are emotions are done
    with a URL it only shows the notice, without calling
    [createAlbumPage] and without any download; and it calls
    [createAlbumPage] only if the entry of every emotion is done with a
    URL. *)
Theorem export_needs_all_done getContext decode random emotions a :
  resultsWf emotions (generatedImages a) →
  let r := handleDownloadAlbum getContext decode random emotions a in
  let exportable :=
    List.filter (fun entry => isDoneWithUrl entry.2) (generatedImages a) in
  generatedImages (appAfter r) = generatedImages a
  ∧ (length exportable < length emotions →
     composition r = None
     ∧ effects r = [Alert stillGeneratingNotice]
     ∧ appAfter r = setIsDownloading false a)
  ∧ (composition r ≠ None →
     ∀ e, e ∈ emotions →
       ∃ image u, Obj.get (generatedImages a) (label e) = Some image
                  ∧ status image = StDone ∧ url image = Some u ∧ u ≠ "").
Proof.
  intros [Hnd Hsub] r exportable.
  assert (Hcount : length (Obj.keys (albumInput (generatedImages a)))
                   = length exportable).
  { rewrite albumInput_keys by done. unfold Obj.keys. by rewrite length_fmap. }
  unfold r, handleDownloadAlbum. cbv zeta.
  change (generatedImages (setIsDownloading true a)) with (generatedImages a).
  rewrite Hcount.
  destruct (length exportable <? length emotions) eqn:Hlt.
  - split_and!; done.
  - apply Nat.ltb_ge in Hlt.
    assert (Hall : ∀ e, e ∈ emotions →
              ∃ image u, Obj.get (generatedImages a) (label e) = Some image
                         ∧ status image = StDone ∧ url image = Some u
                         ∧ u ≠ "").
    { intros e He.
      assert (Hin : label e ∈ Obj.keys exportable).
      { apply list_elem_of_In.
        apply (NoDup_length_incl (l := Obj.keys exportable)
                 (l' := label <$> emotions)).
        - apply NoDup_ListNoDup. by apply NoDup_keys_filter.
        - unfold Obj.keys. rewrite !length_fmap. exact Hlt.
        - intros k Hk%list_elem_of_In. apply list_elem_of_In, Hsub.
          by eapply elem_of_keys_filter.
        - apply list_elem_of_In. by apply list_elem_of_fmap_2. }
      apply exportable_entry in Hin as (image & Hget & Hdone); [|done].
      apply isDoneWithUrl_spec in Hdone as (Hst & u & Hu & Hne).
      by exists image, u. }
    destruct (createAlbumPage _ _ _ _ _) as [log [exn|albumDataUrl]];
      simpl; (split_and!; [done|lia|done]).
Qed.

(** *** The results map stays well formed *)

Lemma resultsWf_set emotions g lbl entry :
  resultsWf emotions g → lbl ∈ label <$> emotions →
  resultsWf emotions (Obj.set g lbl entry).
Proof.
  intros [Hnd Hsub] Hlbl. split; [by apply obj_keys_set_NoDup|].
  intros k [->|Hk]%obj_keys_set_elem; [done|by apply Hsub].
Qed.

Lemma resultsWf_initial emotions : resultsWf emotions (initialImages emotions).
Proof.
  split; [|by intros k Hk%initialImages_keys].
  unfold initialImages.
  assert (H : ∀ acc : Obj.t GeneratedImage, NoDup (Obj.keys acc) →
            NoDup (Obj.keys (foldl (fun acc emotion =>
                                      Obj.set acc (label emotion) pendingEntry)
                                   acc emotions))).
  { induction emotions as [|e emotions IH]; simpl; [done|].
    intros acc Hacc. by apply IH, obj_keys_set_NoDup. }
  apply H. constructor.
Qed.

Lemma awaited_label_known emotions s w emotion :
  invariant emotions s → workers s !! w = Some (Awaiting emotion) →
  label emotion ∈ label <$> emotions.
Proof.
  intros [_ Hout Hfifo Hset _ _ _] Hw.
  destruct (awaited_insert (workers s) w (Awaiting emotion) Ready Hw)
    as (b & a & Hold & _). simpl in Hold.
  assert (Hin : label emotion ∈ outstanding s).
  { rewrite Hout, Hold. apply elem_of_app. right. apply elem_of_cons. by left. }
  rewrite <- Hfifo. apply elem_of_app. left. rewrite <- Hset.
  apply elem_of_app. by right.
Qed.

Lemma reachable_resultsWf emotions a s :
  reachable emotions a s → resultsWf emotions (generatedImages (app s)).
Proof.
  intros (s0 & evs & Hstart & Hrun).
  pose proof (invariant_start _ _ _ Hstart) as Hinv.
  assert (H0 : resultsWf emotions (generatedImages (app s0))).
  { unfold handleGenerateClick_start in Hstart.
    destruct (uploadedImage a); [|done]. injection Hstart as <-.
    apply resultsWf_initial. }
  clear Hstart. revert s0 Hinv H0 Hrun.
  induction evs as [|ev evs IH]; simpl; intros s0 Hinv H0.
  - by intros [= <-].
  - destruct (step ev s0) as [s1|] eqn:Hstep; [|done].
    apply IH; [by eapply invariant_step|].
    destruct ev as [w|w o|]; simpl in Hstep.
    + unfold resume in Hstep. destruct (workers s0 !! w) as [[| |]|]; try done.
      destruct (emotionsQueue s0); by injection Hstep as <-.
    + unfold settle in Hstep.
      destruct (workers s0 !! w) as [[|emotion|]|] eqn:Hw; try done.
      injection Hstep as <-. simpl.
      pose proof (awaited_label_known _ _ _ _ Hinv Hw) as Hl.
      destruct o; by apply resultsWf_set.
    + unfold join in Hstep. destruct (_ && _); [|done].
      by injection Hstep as <-.
Qed.

Lemma findEmotion_label emotions lbl emotionItem :
  findEmotion emotions lbl = Some emotionItem → lbl ∈ label <$> emotions.
Proof.
  intros [Hin Heq%bool_decide_eq_true]%find_some. subst lbl.
  by apply list_elem_of_fmap_2, list_elem_of_In.
Qed.

Lemma regenerate_resultsWf emotions lbl o a :
  resultsWf emotions (generatedImages a) →
  resultsWf emotions
    (generatedImages (handleRegenerateEmotion_start emotions lbl a).1)
  ∧ (lbl ∈ label <$> emotions →
     resultsWf emotions
       (generatedImages (handleRegenerateEmotion_settle lbl o a))).
Proof.
  intros Hwf. split.
  - unfold handleRegenerateEmotion_start. destruct (uploadedImage a); [|done].
    destruct (findEmotion emotions lbl) as [e|] eqn:Hfind; [|done].
    destruct (isPending (generatedImages a) lbl); [done|]. simpl.
    apply resultsWf_set; [done|]. by eapply findEmotion_label.
  - intros Hl. destruct o; by apply resultsWf_set.
Qed.

Lemma sampleFinal_reachable : reachable EMOTIONS sampleApp sampleFinal.
Proof. exists sampleStart, sampleEvents. split; vm_compute; reflexivity. Qed.

Lemma export_needs_all_done_witness :
  let r := handleDownloadAlbum true sampleDecode noJitter EMOTIONS
             sampleHalfDone in
  resultsWf EMOTIONS (generatedImages sampleHalfDone)
  ∧ length (List.filter (fun entry => isDoneWithUrl entry.2)
              (generatedImages sampleHalfDone)) = 3
  ∧ length EMOTIONS = 6
  ∧ composition r = None
  ∧ effects r = [Alert stillGeneratingNotice]
  ∧ generatedImages (appAfter r) = generatedImages sampleHalfDone.
Proof.
  intros r.
  assert (Hwf : resultsWf EMOTIONS (generatedImages sampleHalfDone)).
  { apply (reachable_resultsWf EMOTIONS sampleApp), sampleFinal_reachable. }
  destruct (export_needs_all_done true sampleDecode noJitter EMOTIONS
              sampleHalfDone Hwf) as (Hsame & Hreject & _).
  assert (Hfew : length (List.filter (fun entry => isDoneWithUrl entry.2)
                           (generatedImages sampleHalfDone))
                 < length EMOTIONS) by (vm_compute; lia).
  destruct (Hreject Hfew) as (Hnone & Halert & _).
  split_and!;
    [exact Hwf|reflexivity|reflexivity|exact Hnone|exact Halert|exact Hsame].
Defined.

(** With every entry done the album is composed and offered for download. *)
Example export_all_done_downloads :
  ∃ log albumDataUrl,
    composition (handleDownloadAlbum true sampleDecode noJitter EMOTIONS
                   sampleAllDone)
    = Some (log, inr albumDataUrl)
    ∧ effects (handleDownloadAlbum true sampleDecode noJitter EMOTIONS
                 sampleAllDone)
      = [Download albumDataUrl "my-emoji-collection.jpg"].
Proof. eexists _, _. split; vm_compute; reflexivity. Qed.

(** * Further properties *)

(** ** The run, state by state *)

Lemma run_app evs1 evs2 s :
  run (evs1 ++ evs2) s
  = match run evs1 s with Some s1 => run evs2 s1 | None => None end.
Proof.
  revert s. induction evs1 as [|ev evs1 IH]; intros s; simpl; [done|].
  destruct (step ev s); [apply IH|done].
Qed.

Lemma reachable_step emotions a ev s s' :
  reachable emotions a s → step ev s = Some s' → reachable emotions a s'.
Proof.
  intros (s0 & evs & Hstart & Hrun) Hstep.
  exists s0, (evs ++ [ev]). split; [done|].
  rewrite run_app, Hrun. simpl. by rewrite Hstep.
Qed.

(** Induction over the states of a run. *)
Lemma reachable_induction emotions a (P : Pipeline → Prop) :
  (∀ s0, handleGenerateClick_start emotions a = Some s0 → P s0) →
  (∀ ev s s', reachable emotions a s → P s → step ev s = Some s' → P s') →
  ∀ s, reachable emotions a s → P s.
Proof.
  intros Hstart Hstep s (s0 & evs & Hs0 & Hrun). revert s Hrun.
  induction evs as [|ev evs IH] using rev_ind; intros s.
  - simpl. intros [= <-]. by apply Hstart.
  - rewrite run_app. destruct (run evs s0) as [s1|] eqn:Hrun1; [|done].
    simpl. destruct (step ev s1) as [s2|] eqn:Hs; [|done]. intros [= <-].
    eapply Hstep; [|by apply IH|exact Hs]. by exists s0, evs.
Qed.

(** X1.  Requests leave in declaration order, each with the uploaded
    image and the prompt of its emotion: at every moment the requests sent
    so far, followed by those the queue still stands for, are the requests
    of [emotions] in order. *)
Theorem requests_in_declaration_order emotions a s :
  reachable emotions a s →
  ∃ img, uploadedImage a = Some img
         ∧ issued s ++ (requestOf img <$> emotionsQueue s)
           = requestOf img <$> emotions.
Proof.
  intros Hreach. destruct (uploadedImage a) as [img|] eqn:Himg.
  2:{ destruct Hreach as (s0 & evs & Hs0 & _).
      unfold handleGenerateClick_start in Hs0. by rewrite Himg in Hs0. }
  exists img. split; [done|].
  assert (H : sourceImage s = img
              ∧ issued s ++ (requestOf img <$> emotionsQueue s)
                = requestOf img <$> emotions); [|by destruct H].
  revert s Hreach. apply reachable_induction.
  - intros s0. unfold handleGenerateClick_start. rewrite Himg.
    by intros [= <-].
  - intros ev s s' _ [Hsrc Hq] Hstep. destruct ev as [w|w o|]; simpl in Hstep.
    + unfold resume in Hstep. destruct (workers s !! w) as [[| |]|]; try done.
      destruct (emotionsQueue s) as [|e rest]; injection Hstep as <-; simpl.
      * done.
      * split; [done|]. rewrite <- Hq, <- app_assoc, Hsrc. done.
    + unfold settle in Hstep. destruct (workers s !! w) as [[|e|]|]; try done.
      by injection Hstep as <-.
    + unfold join in Hstep. destruct (_ && _); [|done].
      by injection Hstep as <-.
Qed.

Lemma requests_in_declaration_order_witness :
  reachable EMOTIONS sampleApp sampleBusy
  ∧ length (issued sampleBusy) = 2
  ∧ ∃ img, uploadedImage sampleApp = Some img
           ∧ issued sampleBusy ++ (requestOf img <$> emotionsQueue sampleBusy)
             = requestOf img <$> EMOTIONS.
Proof.
  assert (Hreach : reachable EMOTIONS sampleApp sampleBusy).
  { exists sampleStart, [Resume 0; Resume 1]. split; vm_compute; reflexivity. }
  split; [exact Hreach|]. split; [reflexivity|].
  exact (requests_in_declaration_order EMOTIONS sampleApp sampleBusy Hreach).
Defined.

(** X2.  Over emotions with pairwise distinct labels, every label is at
    every moment in exactly one place: settled, in flight with one worker,
    or still in the queue.  So no two workers ever hold the same label,
    and no label in flight or settled is handed out again. *)
Theorem labels_partitioned emotions a s :
  NoDup (label <$> emotions) →
  reachable emotions a s →
  (transitions s).*1 ++ omap awaitedLabel (workers s)
    ++ (label <$> emotionsQueue s)
  ≡ₚ label <$> emotions
  ∧ NoDup ((transitions s).*1 ++ omap awaitedLabel (workers s)
             ++ (label <$> emotionsQueue s)).
Proof.
  intros Hnd [_ Hout Hfifo Hset _ _ _]%invariant_reachable.
  assert (Hperm : (transitions s).*1 ++ omap awaitedLabel (workers s)
                    ++ (label <$> emotionsQueue s)
                  ≡ₚ label <$> emotions).
  { rewrite <- Hfifo, <- Hset, <- Hout. by rewrite <- app_assoc. }
  split; [exact Hperm|]. by rewrite Hperm.
Qed.

Lemma labels_partitioned_witness :
  NoDup (label <$> EMOTIONS)
  ∧ reachable EMOTIONS sampleApp sampleBusy
  ∧ NoDup ((transitions sampleBusy).*1 ++ omap awaitedLabel (workers sampleBusy)
             ++ (label <$> emotionsQueue sampleBusy)).
Proof.
  assert (Hreach : reachable EMOTIONS sampleApp sampleBusy).
  { exists sampleStart, [Resume 0; Resume 1]. split; vm_compute; reflexivity. }
  split; [exact EMOTIONS_labels_NoDup|]. split; [exact Hreach|].
  exact (proj2 (labels_partitioned EMOTIONS sampleApp sampleBusy
                  EMOTIONS_labels_NoDup Hreach)).
Defined.

Lemma initialImages_keys_eq emotions :
  NoDup (label <$> emotions) →
  Obj.keys (initialImages emotions) = label <$> emotions.
Proof.
  unfold initialImages.
  assert (H : ∀ acc : Obj.t GeneratedImage,
            NoDup (Obj.keys acc ++ (label <$> emotions)) →
            Obj.keys (foldl (fun acc emotion =>
                               Obj.set acc (label emotion) pendingEntry)
                            acc emotions)
            = Obj.keys acc ++ (label <$> emotions)).
  { induction emotions as [|e emotions IH]; intros acc Hnd; csimpl.
    - by rewrite app_nil_r.
    - csimpl in Hnd. apply NoDup_app in Hnd as (Hacc & Hdisj & Hl).
      apply NoDup_cons in Hl as [He Hl].
      assert (Hfresh : label e ∉ Obj.keys acc).
      { intros Hin. apply (Hdisj _ Hin), elem_of_cons. by left. }
      rewrite IH; rewrite obj_keys_set_notin by done.
      + by rewrite <- app_assoc.
      + rewrite <- app_assoc. simpl. apply NoDup_app. split_and!; [done| |].
        * intros k Hk. apply Hdisj in Hk. done.
        * by apply NoDup_cons. }
  intros Hnd. by rewrite H.
Qed.

(** The order of the labels, and the entries not yet settled. *)
Lemma reachable_keys_pending emotions a s :
  NoDup (label <$> emotions) →
  reachable emotions a s →
  Obj.keys (generatedImages (app s)) = label <$> emotions
  ∧ ∀ l, l ∈ label <$> emotions → l ∉ ((transitions s).*1) →
         Obj.get (generatedImages (app s)) l = Some pendingEntry.
Proof.
  intros Hnd Hreach. revert s Hreach. apply reachable_induction.
  - intros s0. unfold handleGenerateClick_start.
    destruct (uploadedImage a); [|done]. intros [= <-]. simpl.
    split; [by apply initialImages_keys_eq|]. intros l Hl _.
    apply initialImages_keys, obj_get_is_Some in Hl as [g Hg].
    rewrite Hg. f_equal.
    apply obj_get_Some_elem in Hg.
    pose proof (initialImages_pending emotions) as Hall.
    rewrite Forall_forall in Hall. exact (Hall _ Hg).
  - intros ev s s' Hr [Hkeys Hpend] Hstep.
    destruct ev as [w|w o|]; simpl in Hstep.
    + unfold resume in Hstep. destruct (workers s !! w) as [[| |]|]; try done.
      destruct (emotionsQueue s); by injection Hstep as <-.
    + unfold settle in Hstep.
      destruct (workers s !! w) as [[|e|]|] eqn:Hw; try done.
      injection Hstep as <-. simpl.
      pose proof (awaited_label_known _ _ _ _
                    (invariant_reachable _ _ _ Hr) Hw) as Hl.
      split.
      * rewrite <- Hkeys in Hl. rewrite <- Hkeys.
        destruct o; by apply obj_keys_set_in.
      * intros l Hin Hnot. rewrite fmap_app, not_elem_of_app in Hnot.
        destruct Hnot as [Hnot Hne]. simpl in Hne.
        rewrite list_elem_of_singleton in Hne.
        rewrite writeSettled_get, decide_False by done. by apply Hpend.
    + unfold join in Hstep. destruct (_ && _); [|done].
      by injection Hstep as <-.
Qed.

(** X3.  Over emotions with pairwise distinct labels, throughout a run
    the results map lists the labels in declaration order, and the entry
    of a label stays pending until its own request has settled, after
    which it is done or error. *)
Theorem results_follow_settlements emotions a s :
  NoDup (label <$> emotions) →
  reachable emotions a s →
  Obj.keys (generatedImages (app s)) = label <$> emotions
  ∧ ∀ e, e ∈ emotions →
      ((label e ∉ (transitions s).*1)
       ∧ Obj.get (generatedImages (app s)) (label e) = Some pendingEntry)
      ∨ (label e ∈ (transitions s).*1
         ∧ ∃ g, Obj.get (generatedImages (app s)) (label e) = Some g
                ∧ terminal (status g)).
Proof.
  intros Hnd Hreach.
  pose proof (reachable_keys_pending emotions a s Hnd Hreach) as H.
  destruct H as [Hkeys Hpend]. split; [exact Hkeys|].
  intros e He.
  assert (Hl : label e ∈ label <$> emotions) by by apply list_elem_of_fmap_2.
  destruct (decide (label e ∈ (transitions s).*1)) as [Hin|Hnot].
  - right. split; [done|].
    by apply (inv_terminal _ _ (invariant_reachable _ _ _ Hreach)).
  - left. split; [done|]. by apply Hpend.
Qed.

Lemma results_follow_settlements_witness :
  NoDup (label <$> EMOTIONS)
  ∧ reachable EMOTIONS sampleApp sampleFinal
  ∧ Obj.keys (generatedImages (app sampleFinal)) = label <$> EMOTIONS.
Proof.
  split; [exact EMOTIONS_labels_NoDup|].
  split; [exact sampleFinal_reachable|].
  exact (proj1 (results_follow_settlements EMOTIONS sampleApp sampleFinal
                  EMOTIONS_labels_NoDup sampleFinal_reachable)).
Defined.

(** X4.  A run leaves the uploaded image and the download flag alone;
    until the workers have joined the application is loading and in the
    generating phase, and from the join on it is no longer loading and
    shows the results. *)
Theorem run_phases emotions a s :
  reachable emotions a s →
  uploadedImage (app s) = uploadedImage a
  ∧ isDownloading (app s) = isDownloading a
  ∧ (if joined s
     then isLoading (app s) = false ∧ appState (app s) = results_shown
          ∧ Forall (fun w => w = Finished) (workers s)
     else isLoading (app s) = true ∧ appState (app s) = generating).
Proof.
  revert s. apply reachable_induction.
  - intros s0. unfold handleGenerateClick_start.
    destruct (uploadedImage a) eqn:Himg; [|done]. by intros [= <-].
  - intros ev s s' Hr (Himg & Hdl & Hphase) Hstep.
    destruct ev as [w|w o|]; simpl in Hstep.
    + unfold resume in Hstep.
      destruct (workers s !! w) as [[| |]|] eqn:Hw; try done.
      assert (Hj : joined s = false).
      { destruct (joined s); [|done]. destruct Hphase as (_ & _ & Hall).
        eapply Forall_lookup_1 in Hall; [|exact Hw]. done. }
      rewrite Hj in Hphase.
      destruct (emotionsQueue s); injection Hstep as <-; simpl;
        by rewrite Hj.
    + unfold settle in Hstep.
      destruct (workers s !! w) as [[|e|]|] eqn:Hw; try done.
      assert (Hj : joined s = false).
      { destruct (joined s); [|done]. destruct Hphase as (_ & _ & Hall).
        eapply Forall_lookup_1 in Hall; [|exact Hw]. done. }
      rewrite Hj in Hphase. injection Hstep as <-; simpl. by rewrite Hj.
    + unfold join in Hstep.
      destruct (forallb isFinished (workers s)) eqn:Hall; [|done].
      destruct (joined s); [done|]. injection Hstep as <-. simpl.
      split_and!; try done. by apply forallb_isFinished.
Qed.

Lemma run_phases_witness :
  reachable EMOTIONS sampleApp sampleFinal
  ∧ joined sampleFinal = true
  ∧ isLoading (app sampleFinal) = false
  ∧ appState (app sampleFinal) = results_shown.
Proof.
  split; [exact sampleFinal_reachable|]. split; [reflexivity|].
  destruct (run_phases EMOTIONS sampleApp sampleFinal sampleFinal_reachable)
    as (_ & _ & Hphase).
  change (joined sampleFinal) with true in Hphase.
  destruct Hphase as (Hl & Hp & _). split; [exact Hl|exact Hp].
Defined.

(** ** Guards and retries *)

(** X5.  After [handleReset] the application is idle with no image and an
    empty results map, and neither a click on generate nor a regenerate of
    any label sends a request or changes anything. *)
Theorem reset_disables_generation emotions lbl a :
  let a' := handleReset a in
  uploadedImage a' = None
  ∧ generatedImages a' = Obj.empty
  ∧ appState a' = idle
  ∧ handleGenerateClick_start emotions a' = None
  ∧ handleRegenerateEmotion_start emotions lbl a' = (a', None).
Proof. by split_and!. Qed.

Lemma findEmotion_None emotions lbl :
  lbl ∉ label <$> emotions → findEmotion emotions lbl = None.
Proof.
  intros Hnot. unfold findEmotion.
  destruct (find _ emotions) as [e|] eqn:Hfind; [|done].
  exfalso. apply Hnot. by eapply findEmotion_label.
Qed.

(** X6.  A regenerate for a caption that is not the label of an emotion
    sends no request and changes nothing. *)
Theorem regenerate_unknown_label emotions lbl a :
  lbl ∉ label <$> emotions →
  handleRegenerateEmotion_start emotions lbl a = (a, None).
Proof.
  intros Hnot. unfold handleRegenerateEmotion_start.
  destruct (uploadedImage a); [|done]. by rewrite findEmotion_None.
Qed.

Lemma regenerate_unknown_label_witness :
  ("extra" ∉ label <$> EMOTIONS)
  ∧ handleRegenerateEmotion_start EMOTIONS "extra" sampleHalfDone
    = (sampleHalfDone, None).
Proof.
  assert (Hnot : "extra" ∉ label <$> EMOTIONS) by compute_done.
  split; [exact Hnot|].
  exact (regenerate_unknown_label EMOTIONS "extra" sampleHalfDone Hnot).
Defined.

Lemma findEmotion_Some emotions lbl emotionItem :
  findEmotion emotions lbl = Some emotionItem →
  emotionItem ∈ emotions ∧ label emotionItem = lbl.
Proof.
  intros [Hin Heq%bool_decide_eq_true]%find_some.
  split; [by apply list_elem_of_In|done].
Qed.

(** X7.  Regenerating a label whose entry is done or error: the request
    sent is the one the pipeline sends for that emotion; while it is in
    flight the entry is pending and a second regenerate of the label does
    nothing; once it settles the entry is the done or error entry of the
    settlement.  Every other entry, the order of the labels and the rest
    of the application state are as before. *)
Theorem regenerate_round_trip emotions lbl a img emotionItem g o :
  uploadedImage a = Some img →
  findEmotion emotions lbl = Some emotionItem →
  Obj.get (generatedImages a) lbl = Some g →
  terminal (status g) →
  let a1 := (handleRegenerateEmotion_start emotions lbl a).1 in
  let a2 := handleRegenerateEmotion_settle lbl o a1 in
  (handleRegenerateEmotion_start emotions lbl a).2 = Some (requestOf img emotionItem)
  ∧ Obj.get (generatedImages a1) lbl = Some pendingEntry
  ∧ handleRegenerateEmotion_start emotions lbl a1 = (a1, None)
  ∧ Obj.get (generatedImages a2) lbl
    = Some (match o with
            | Resolved resultUrl => doneEntry resultUrl
            | Rejected err => errorEntry (errorMessage err)
            end)
  ∧ (∀ k, k ≠ lbl →
          Obj.get (generatedImages a2) k = Obj.get (generatedImages a) k)
  ∧ Obj.keys (generatedImages a2) = Obj.keys (generatedImages a)
  ∧ setGeneratedImages (fun _ => generatedImages a) a2 = a.
Proof.
  intros Himg Hfind Hget Hterm a1 a2.
  pose proof (regenerate_terminal_requests _ _ _ _ _ _ Himg Hfind Hget Hterm)
    as Hstart.
  destruct (findEmotion_Some _ _ _ Hfind) as [_ Hlbl].
  assert (Hkey : lbl ∈ Obj.keys (generatedImages a)).
  { apply obj_get_is_Some. by eexists. }
  unfold a2, a1. rewrite Hstart. simpl. split_and!.
  - unfold requestOf. by rewrite Hlbl.
  - apply obj_get_set_eq.
  - unfold handleRegenerateEmotion_start. simpl. rewrite Himg, Hfind.
    unfold isPending, writePending. by rewrite obj_get_set_eq.
  - by rewrite writeSettled_get, decide_True.
  - intros k Hk. rewrite writeSettled_get, decide_False by done.
    by apply obj_get_set_ne.
  - assert (Hkey1 : lbl ∈ Obj.keys (writePending lbl (generatedImages a))).
    { apply obj_keys_set_elem. by left. }
    transitivity (Obj.keys (writePending lbl (generatedImages a))).
    + destruct o; by apply obj_keys_set_in.
    + by apply obj_keys_set_in.
  - by destruct a.
Qed.

Lemma regenerate_round_trip_witness :
  let lbl := "Í¥ëÍ¥ë Ïö∞Îü≠" in
  let o := Resolved "data:image/jpeg;base64,/9j/retry" in
  let a1 := (handleRegenerateEmotion_start EMOTIONS lbl sampleHalfDone).1 in
  let a2 := handleRegenerateEmotion_settle lbl o a1 in
  uploadedImage sampleHalfDone = Some "data:image/png;base64,iVBORw0KGgo="
  ∧ findEmotion EMOTIONS lbl = Some sampleSecond
  ∧ Obj.get (generatedImages sampleHalfDone) lbl
    = Some (errorEntry "quota exceeded")
  ∧ terminal (status (errorEntry "quota exceeded"))
  ∧ Obj.get (generatedImages a2) lbl
    = Some (doneEntry "data:image/jpeg;base64,/9j/retry")
  ∧ Obj.keys (generatedImages a2) = Obj.keys (generatedImages sampleHalfDone).
Proof.
  intros lbl o a1 a2.
  assert (Himg : uploadedImage sampleHalfDone
                 = Some "data:image/png;base64,iVBORw0KGgo=") by reflexivity.
  assert (Hfind : findEmotion EMOTIONS lbl = Some sampleSecond)
    by (vm_compute; reflexivity).
  assert (Hget : Obj.get (generatedImages sampleHalfDone) lbl
                 = Some (errorEntry "quota exceeded"))
    by (vm_compute; reflexivity).
  assert (Hterm : terminal (status (errorEntry "quota exceeded")))
    by (by right).
  destruct (regenerate_round_trip EMOTIONS lbl sampleHalfDone _ _ _ o
              Himg Hfind Hget Hterm) as (_ & _ & _ & Hdone & _ & Hkeys & _).
  split_and!; [exact Himg|exact Hfind|exact Hget|exact Hterm
              |exact Hdone|exact Hkeys].
Defined.

(** X8.  A settlement that arrives after a reset or after a new upload is
    still written: the results map, emptied by the reset or the upload,
    then holds that one entry. *)
Theorem stale_settlement_is_written lbl o a file :
  generatedImages (handleRegenerateEmotion_settle lbl o (handleReset a))
  = [(lbl, match o with
           | Resolved resultUrl => doneEntry resultUrl
           | Rejected err => errorEntry (errorMessage err)
           end)]
  ∧ generatedImages
      (handleRegenerateEmotion_settle lbl o (handleImageUpload (Some file) a))
    = [(lbl, match o with
             | Resolved resultUrl => doneEntry resultUrl
             | Rejected err => errorEntry (errorMessage err)
             end)].
Proof. by destruct o. Qed.

(** ** What the album is made from *)

Lemma obj_set_notin {V} (o : Obj.t V) k (v : V) :
  k ∉ Obj.keys o → Obj.set o k v = o ++ [(k, v)].
Proof.
  unfold Obj.keys. induction o as [|[k' v'] o IH]; csimpl; [done|].
  intros [Hne Hnin]%not_elem_of_cons.
  rewrite decide_False by done. by rewrite IH.
Qed.

(** The URL an exportable entry contributes. *)
Lemma reduce_entries (l : Obj.t GeneratedImage) (acc : Obj.t string) :
  (∀ entry, entry ∈ l → isDoneWithUrl entry.2 = true) →
  NoDup (Obj.keys l) →
  (∀ k, k ∈ Obj.keys l → k ∉ Obj.keys acc) →
  foldl (fun acc entry =>
           match url entry.2 with
           | Some u => if truthy (Some u) then Obj.set acc entry.1 u else acc
           | None => acc
           end) acc l
  = acc ++ omap (fun entry => pair entry.1 <$> url entry.2) l.
Proof.
  revert acc. induction l as [|[k image] l IH]; intros acc Hdone Hnd Hfresh.
  - simpl. by rewrite app_nil_r.
  - assert (Himg : isDoneWithUrl image = true).
    { apply (Hdone (k, image)). apply elem_of_cons. by left. }
    apply isDoneWithUrl_spec in Himg as (_ & u & Hu & Hne).
    destruct u as [|c u']; [done|]. unfold Obj.keys in Hnd. csimpl in Hnd.
    apply NoDup_cons in Hnd as [Hk Hnd].
    assert (Hkacc : k ∉ Obj.keys acc).
    { apply Hfresh. unfold Obj.keys. csimpl. apply elem_of_cons. by left. }
    cbn [foldl fst snd]. rewrite Hu. cbn [truthy]. rewrite IH.
    + rewrite obj_set_notin by done. csimpl. rewrite Hu. csimpl.
      by rewrite <- app_assoc.
    + intros entry He. apply Hdone, elem_of_cons. by right.
    + done.
    + intros k' Hk'. rewrite obj_keys_set_elem. intros [->|Hacc]; [done|].
      apply (Hfresh k'); [|done]. unfold Obj.keys. csimpl.
      apply elem_of_cons. by right.
Qed.

Lemma albumInput_entries g :
  NoDup (Obj.keys g) →
  albumInput g
  = omap (fun entry => pair entry.1 <$> url entry.2)
         (List.filter (fun entry => isDoneWithUrl entry.2) g).
Proof.
  intros Hnd. unfold albumInput, Obj.entries. rewrite reduce_entries; [done|..].
  - intros entry [_ He]%list_elem_of_In%filter_In. exact He.
  - by apply NoDup_keys_filter.
  - intros k _ Hk. by apply elem_of_nil in Hk.
Qed.

Lemma obj_get_elem_iff {V} (o : Obj.t V) k (v : V) :
  NoDup (Obj.keys o) → Obj.get o k = Some v ↔ (k, v) ∈ o.
Proof.
  intros Hnd. split; [apply obj_get_Some_elem|by apply obj_elem_get_NoDup].
Qed.

Lemma albumInput_get g k u :
  NoDup (Obj.keys g) →
  Obj.get (albumInput g) k = Some u
  ↔ ∃ image, Obj.get g k = Some image
             ∧ status image = StDone ∧ url image = Some u ∧ u ≠ "".
Proof.
  intros Hnd.
  assert (Hnd' : NoDup (Obj.keys (albumInput g))).
  { rewrite albumInput_keys by done. by apply NoDup_keys_filter. }
  rewrite obj_get_elem_iff by done. rewrite albumInput_entries by done.
  rewrite list_elem_of_omap. split.
  - intros ([k' image] & Hin & Heq). simpl in Heq.
    apply list_elem_of_In, filter_In in Hin as [Hin Hdone].
    apply isDoneWithUrl_spec in Hdone as (Hst & u' & Hu & Hne).
    simpl in Hst, Hu. rewrite Hu in Heq. injection Heq as -> ->.
    exists image. split_and!; try done.
    apply obj_get_elem_iff; [done|]. by apply list_elem_of_In.
  - intros (image & Hget & Hst & Hu & Hne). exists (k, image). split.
    + apply list_elem_of_In, filter_In. split.
      * apply list_elem_of_In. by apply obj_get_elem_iff.
      * apply isDoneWithUrl_spec. split; [done|]. by exists u.
    + simpl. by rewrite Hu.
Qed.

(** X9.  On a results map with one entry per label, the album input maps
    a label to a URL exactly when the entry of that label is done with
    that URL and the URL is not empty; pending entries, error entries and
    done entries without URL are left out. *)
Theorem albumInput_lookup g k u :
  NoDup (Obj.keys g) →
  Obj.get (albumInput g) k = Some u
  ↔ ∃ image, Obj.get g k = Some image
             ∧ status image = StDone ∧ url image = Some u ∧ u ≠ "".
Proof. apply albumInput_get. Qed.

Lemma albumInput_lookup_witness :
  let g := generatedImages sampleHalfDone in
  NoDup (Obj.keys g)
  ∧ Obj.get (albumInput g) "Í∑πÎåÄÎÖ∏"
    = Some "data:image/jpeg;base64,/9j/anger"
  ∧ ∃ image, Obj.get g "Í∑πÎåÄÎÖ∏" = Some image
             ∧ status image = StDone
             ∧ url image = Some "data:image/jpeg;base64,/9j/anger"
             ∧ "data:image/jpeg;base64,/9j/anger" ≠ "".
Proof.
  intros g. assert (Hnd : NoDup (Obj.keys g)) by compute_done.
  assert (Hget : Obj.get (albumInput g) "Í∑πÎåÄÎÖ∏"
                 = Some "data:image/jpeg;base64,/9j/anger")
    by (vm_compute; reflexivity).
  split; [exact Hnd|]. split; [exact Hget|].
  exact (proj1 (albumInput_lookup g _ _ Hnd) Hget).
Defined.

Lemma string_length_app (s t : string) :
  String.length (s +:+ t) = String.length s + String.length t.
Proof. induction s as [|c s IH]; simpl; [done|]. by rewrite IH. Qed.

Lemma string_app_inj_r (s1 s2 t : string) : s1 +:+ t = s2 +:+ t → s1 = s2.
Proof.
  revert s2. induction s1 as [|c1 s1 IH]; intros [|c2 s2] Heq.
  - done.
  - apply (f_equal String.length) in Heq.
    rewrite !string_length_app in Heq. simpl in Heq. lia.
  - apply (f_equal String.length) in Heq.
    rewrite !string_length_app in Heq. simpl in Heq. lia.
  - cbn in Heq. injection Heq as -> Heq. f_equal. by apply IH.
Qed.

(** X10.  On a results map with one entry per label, the image of a label
    can be downloaded on its own exactly when the album input holds that
    label, and the link then points to the same URL and is named
    [emoji-<label>.jpg]; the links of two different labels never have the
    same file name. *)
Theorem individual_download_matches_album lbl a :
  NoDup (Obj.keys (generatedImages a)) →
  (∀ u, Obj.get (albumInput (generatedImages a)) lbl = Some u
        ↔ handleDownloadIndividualImage lbl a
          = Some {| href := u; download := "emoji-" +:+ lbl +:+ ".jpg" |})
  ∧ (∀ lbl' link link',
       handleDownloadIndividualImage lbl a = Some link →
       handleDownloadIndividualImage lbl' a = Some link' →
       download link = download link' → lbl = lbl').
Proof.
  intros Hnd. split.
  - intros u. rewrite albumInput_get by done.
    unfold handleDownloadIndividualImage. split.
    + intros (image & -> & -> & -> & Hne). destruct u; [done|]. done.
    + destruct (Obj.get (generatedImages a) lbl) as [image|]; [|done].
      destruct image as [[| |] [u'|] msg]; simpl; try done.
      destruct u' as [|c u']; simpl; [done|]. intros [= <-].
      by eexists.
  - intros lbl' link link' H1 H2 Hname.
    unfold handleDownloadIndividualImage in H1, H2.
    destruct (Obj.get (generatedImages a) lbl) as [[[| |] [u|] msg]|];
      simpl in H1; try done.
    destruct (Obj.get (generatedImages a) lbl') as [[[| |] [u'|] msg']|];
      simpl in H2; try done.
    destruct u, u'; try done. injection H1 as <-. injection H2 as <-.
    simpl in Hname. apply (inj (String.app "emoji-")) in Hname.
    by apply string_app_inj_r in Hname.
Qed.

Lemma individual_download_matches_album_witness :
  NoDup (Obj.keys (generatedImages sampleHalfDone))
  ∧ handleDownloadIndividualImage "Í∑πÎåÄÎÖ∏" sampleHalfDone
    = Some {| href := "data:image/jpeg;base64,/9j/anger";
              download := "emoji-Í∑πÎåÄÎÖ∏.jpg" |}
  ∧ handleDownloadIndividualImage "Í¥ëÍ¥ë Ïö∞Îü≠" sampleHalfDone = None.
Proof.
  assert (Hnd : NoDup (Obj.keys (generatedImages sampleHalfDone)))
    by compute_done.
  split; [exact Hnd|]. split; [|reflexivity].
  apply (proj1 (individual_download_matches_album "Í∑πÎåÄÎÖ∏"
                  sampleHalfDone Hnd)).
  vm_compute. reflexivity.
Defined.

(** ** Export, end to end *)

Lemma filter_all {A} (p : A → bool) (l : list A) :
  (∀ x, x ∈ l → p x = true) → List.filter p l = l.
Proof.
  induction l as [|x l IH]; intros Hall; simpl; [done|].
  rewrite (Hall x) by (apply elem_of_cons; by left).
  f_equal. apply IH. intros y Hy. apply Hall, elem_of_cons. by right.
Qed.

Lemma loaded_all_length decode (urls : list string) :
  (∀ u, u ∈ urls → decode u ≠ None) →
  length (omap (loaded decode) urls) = length urls.
Proof.
  induction urls as [|u urls IH]; intros Hall; csimpl; [done|].
  assert (Hu : decode u ≠ None) by (apply Hall, elem_of_cons; by left).
  unfold loaded at 1. destruct (decode u) as [[w h]|]; [|done]. simpl.
  f_equal. apply IH. intros u' Hu'. apply Hall, elem_of_cons. by right.
Qed.

(** The album input of a map all of whose entries are done with a URL. *)
Lemma albumInput_all_done (g : Obj.t GeneratedImage) :
  NoDup (Obj.keys g) →
  (∀ k image, (k, image) ∈ g → isDoneWithUrl image = true) →
  Obj.keys (albumInput g) = Obj.keys g
  ∧ ∀ u, u ∈ Obj.values (albumInput g) →
         ∃ k image, (k, image) ∈ g ∧ url image = Some u.
Proof.
  intros Hnd Hall. rewrite albumInput_keys by done.
  rewrite albumInput_entries by done.
  rewrite filter_all by (intros [k image] Hin; by eapply Hall).
  split; [done|]. intros u Hu. unfold Obj.values in Hu.
  apply list_elem_of_fmap in Hu as ([k u'] & -> & Hin).
  apply list_elem_of_omap in Hin as ([k' image] & Hin & Heq). simpl in Heq.
  destruct (url image) as [u''|] eqn:Hurl; [|done]. injection Heq as -> ->.
  by exists k, image.
Qed.

Lemma createAlbumPage_throws getContext decode random (imageData : Obj.t string) :
  getContext = false ∨ (∃ u, u ∈ Obj.values imageData ∧ decode u = None) →
  ∃ log exn, createAlbumPage getContext decode random imageData [] = (log, inl exn).
Proof.
  intros Hfail. destruct getContext; [|by eexists _, _].
  destruct Hfail as [?|(u & Hu & Hd)]; [done|].
  rewrite createAlbumPage_unfold. cbv zeta.
  destruct (List.filter _ _) as [|u0 srcs] eqn:Hrej; [|by eexists _, _].
  pose proof (proj1 (filter_nil_Forall _ _) Hrej u Hu) as Hf.
  by rewrite bool_decide_eq_false in Hf.
Qed.

Lemma export_download decode random emotions a :
  NoDup (label <$> emotions) →
  Obj.keys (generatedImages a) = label <$> emotions →
  (∀ k image, (k, image) ∈ generatedImages a →
     ∃ u, status image = StDone ∧ url image = Some u ∧ u ≠ ""
          ∧ decode u ≠ None) →
  let r := handleDownloadAlbum true decode random emotions a in
  ∃ entries,
    effects r
    = [Download
         (Jpeg 0.9 (painted preludeLog
                    ++ concat (imap (fun i entry => cardOps random entry i)
                                 entries)))
         "my-emoji-collection.jpg"]
    ∧ entries.*1 = label <$> emotions
    ∧ (∀ lbl img, (lbl, img) ∈ entries →
         ∃ image, Obj.get (generatedImages a) lbl = Some image
                  ∧ url image = Some (src img))
    ∧ appAfter r = setIsDownloading false a.
Proof.
  intros Hnd Hkeys Hall r. set (g := generatedImages a) in *.
  assert (Hndg : NoDup (Obj.keys g)) by by rewrite Hkeys.
  assert (Hexp : ∀ k image, (k, image) ∈ g → isDoneWithUrl image = true).
  { intros k image Hin. destruct (Hall k image Hin) as (u & ? & ? & ? & _).
    apply isDoneWithUrl_spec. split; [done|]. by exists u. }
  destruct (albumInput_all_done g Hndg Hexp) as [Hk Hv].
  assert (Hdec : ∀ u, u ∈ Obj.values (albumInput g) → decode u ≠ None).
  { intros u (k & image & Hin & Hu)%Hv.
    destruct (Hall k image Hin) as (u' & _ & Hu' & _ & Hd). congruence. }
  pose proof (createAlbumPage_loaded decode random _ Hdec) as Hres.
  destruct (loaded_entries decode _ Hdec) as [Hlen Hlook].
  set (entries := zip (Obj.keys (albumInput g))
                      (omap (loaded decode) (Obj.values (albumInput g))))
    in *.
  exists entries.
  assert (Hfst : entries.*1 = label <$> emotions).
  { unfold entries. rewrite fst_zip; [by rewrite Hk|].
    rewrite loaded_all_length by done. unfold Obj.keys, Obj.values.
    by rewrite !length_fmap. }
  unfold r, handleDownloadAlbum. cbv zeta.
  change (generatedImages (setIsDownloading true a)) with g.
  rewrite Hk, Hkeys, length_fmap, Nat.ltb_irrefl.
  destruct (createAlbumPage _ _ _ _ _) as [log res]. simpl in Hres.
  subst res. simpl. split_and!; try done.
  intros lbl img Hin.
  apply list_elem_of_lookup in Hin as [i Hi].
  assert (Hlt : i < length (albumInput g)).
  { rewrite <- Hlen. by eapply lookup_lt_Some. }
  apply lookup_lt_is_Some in Hlt as [[lbl' u] Hu].
  destruct (Hlook i lbl' u Hu) as (img' & Hi' & _ & Hsrc).
  rewrite Hi in Hi'. injection Hi' as <- <-.
  assert (Hget : Obj.get (albumInput g) lbl = Some u).
  { apply obj_get_elem_iff; [by rewrite Hk|]. by eapply list_elem_of_lookup_2. }
  apply albumInput_get in Hget as (image & Hget & _ & Hurl & _); [|done].
  exists image. by rewrite Hsrc.
Qed.

(** X11.  When the results map has the labels of the emotions, distinct,
    in declaration order, every entry is done with a non-empty URL that
    decodes, and the canvas has a context, the export offers exactly one
    download, named [my-emoji-collection.jpg]: the JPEG of the background,
    the title and one card per emotion in declaration order, each card
    painted from the image at the URL of its own entry.  Nothing but the
    download flag, left off, changes in the application state. *)
Theorem export_all_done decode random emotions a :
  NoDup (label <$> emotions) →
  Obj.keys (generatedImages a) = label <$> emotions →
  (∀ k image, (k, image) ∈ generatedImages a →
     ∃ u, status image = StDone ∧ url image = Some u ∧ u ≠ ""
          ∧ decode u ≠ None) →
  let r := handleDownloadAlbum true decode random emotions a in
  ∃ entries,
    effects r
    = [Download
         (Jpeg 0.9 (painted preludeLog
                    ++ concat (imap (fun i entry => cardOps random entry i)
                                 entries)))
         "my-emoji-collection.jpg"]
    ∧ entries.*1 = label <$> emotions
    ∧ (∀ lbl img, (lbl, img) ∈ entries →
         ∃ image, Obj.get (generatedImages a) lbl = Some image
                  ∧ url image = Some (src img))
    ∧ appAfter r = setIsDownloading false a.
Proof. apply export_download. Qed.

Lemma export_all_done_witness :
  let r := handleDownloadAlbum true sampleDecode noJitter EMOTIONS
             sampleAllDone in
  NoDup (label <$> EMOTIONS)
  ∧ Obj.keys (generatedImages sampleAllDone) = label <$> EMOTIONS
  ∧ ∃ entries,
      effects r
      = [Download
           (Jpeg 0.9 (painted preludeLog
                      ++ concat (imap (fun i entry => cardOps noJitter entry i)
                                   entries)))
           "my-emoji-collection.jpg"]
      ∧ entries.*1 = label <$> EMOTIONS.
Proof.
  intros r.
  assert (Hkeys : Obj.keys (generatedImages sampleAllDone) = label <$> EMOTIONS)
    by (vm_compute; reflexivity).
  assert (Hall : ∀ k image, (k, image) ∈ generatedImages sampleAllDone →
            ∃ u, status image = StDone ∧ url image = Some u ∧ u ≠ ""
                 ∧ sampleDecode u ≠ None).
  { intros k image Hin. vm_compute in Hin.
    repeat (apply elem_of_cons in Hin as [[= -> ->]|Hin];
            [eexists; split_and!; [reflexivity|reflexivity|done|by vm_compute]|]).
    by apply elem_of_nil in Hin. }
  destruct (export_all_done sampleDecode noJitter EMOTIONS sampleAllDone
              EMOTIONS_labels_NoDup Hkeys Hall)
    as (entries & Heff & Hfst & _).
  split; [exact EMOTIONS_labels_NoDup|]. split; [exact Hkeys|].
  exists entries. split; [exact Heff|exact Hfst].
Defined.

(** X12.  With every entry done with a non-empty URL, an export that
    cannot be composed, because the canvas has no context or because one
    of the URLs does not decode, logs the error and shows the failure
    notice; nothing is downloaded and only the download flag, left off,
    changes. *)
Theorem export_failure_is_reported getContext decode random emotions a :
  NoDup (label <$> emotions) →
  Obj.keys (generatedImages a) = label <$> emotions →
  (∀ k image, (k, image) ∈ generatedImages a →
     ∃ u, status image = StDone ∧ url image = Some u ∧ u ≠ "") →
  getContext = false
  ∨ (∃ k image u, (k, image) ∈ generatedImages a ∧ url image = Some u
                  ∧ decode u = None) →
  let r := handleDownloadAlbum getContext decode random emotions a in
  effects r = [ConsoleError "Failed to create or download album:";
               Alert saveFailedNotice]
  ∧ (∃ log exn, composition r = Some (log, inl exn))
  ∧ appAfter r = setIsDownloading false a.
Proof.
  intros Hnd Hkeys Hall Hfail r. set (g := generatedImages a) in *.
  assert (Hndg : NoDup (Obj.keys g)) by by rewrite Hkeys.
  assert (Hexp : ∀ k image, (k, image) ∈ g → isDoneWithUrl image = true).
  { intros k image Hin. destruct (Hall k image Hin) as (u & ? & ? & ?).
    apply isDoneWithUrl_spec. split; [done|]. by exists u. }
  destruct (albumInput_all_done g Hndg Hexp) as [Hk _].
  assert (Hthrow : ∃ log exn,
            createAlbumPage getContext decode random (albumInput g) []
            = (log, inl exn)).
  { apply createAlbumPage_throws.
    destruct Hfail as [?|(k & image & u & Hin & Hu & Hd)]; [by left|].
    right. exists u. split; [|done].
    assert (Hget : Obj.get (albumInput g) k = Some u).
    { apply albumInput_get; [done|]. exists image.
      destruct (Hall k image Hin) as (u' & Hst & Hu' & Hne).
      split_and!; [by apply obj_get_elem_iff|done|done|congruence]. }
    apply obj_get_Some_elem in Hget. unfold Obj.values.
    by apply (list_elem_of_fmap_2 snd _ (k, u)). }
  destruct Hthrow as (log & exn & Hthrow).
  unfold r, handleDownloadAlbum. cbv zeta.
  change (generatedImages (setIsDownloading true a)) with g.
  rewrite Hk, Hkeys, length_fmap, Nat.ltb_irrefl, Hthrow. simpl.
  split_and!; [done|by eexists _, _|done].
Qed.

Lemma export_failure_is_reported_witness :
  let r := handleDownloadAlbum true sampleDecode noJitter EMOTIONS
             sampleBrokenDone in
  NoDup (label <$> EMOTIONS)
  ∧ Obj.keys (generatedImages sampleBrokenDone) = label <$> EMOTIONS
  ∧ (∃ k image u, (k, image) ∈ generatedImages sampleBrokenDone
                  ∧ url image = Some u ∧ sampleDecode u = None)
  ∧ effects r = [ConsoleError "Failed to create or download album:";
                 Alert saveFailedNotice].
Proof.
  intros r.
  assert (Hkeys : Obj.keys (generatedImages sampleBrokenDone)
                  = label <$> EMOTIONS) by (vm_compute; reflexivity).
  assert (Hall : ∀ k image, (k, image) ∈ generatedImages sampleBrokenDone →
            ∃ u, status image = StDone ∧ url image = Some u ∧ u ≠ "").
  { intros k image Hin. vm_compute in Hin.
    repeat (apply elem_of_cons in Hin as [[= -> ->]|Hin];
            [eexists; split_and!; [reflexivity|reflexivity|done]|]).
    by apply elem_of_nil in Hin. }
  assert (Hbroken : ∃ k image u, (k, image) ∈ generatedImages sampleBrokenDone
                                 ∧ url image = Some u ∧ sampleDecode u = None).
  { exists (label sampleSecond), (doneEntry "data:broken"), "data:broken".
    split; [|by split]. vm_compute. apply elem_of_cons. right.
    apply elem_of_cons. by left. }
  destruct (export_failure_is_reported true sampleDecode noJitter EMOTIONS
              sampleBrokenDone EMOTIONS_labels_NoDup Hkeys Hall
              (or_intror Hbroken)) as (Heff & _).
  split_and!; [exact EMOTIONS_labels_NoDup|exact Hkeys|exact Hbroken|exact Heff].
Defined.

(** ** The canvas of an album *)

Lemma stackAfter_app bound d ops1 ops2 :
  stackAfter bound d (ops1 ++ ops2)
  = match stackAfter bound d ops1 with
    | Some d' => stackAfter bound d' ops2
    | None => None
    end.
Proof.
  revert d. induction ops1 as [|op ops1 IH]; intros d; [done|].
  rewrite <- app_comm_cons. destruct op; cbn [stackAfter]; try apply IH.
  - destruct (S d <=? bound); [apply IH|done].
  - destruct d; [done|apply IH].
Qed.

Lemma stackAfter_cards random entries k :
  stackAfter 1 0 (cardsFrom random entries k) = Some 0.
Proof.
  revert k. induction entries as [|[lbl img] entries IH]; intros k; [done|].
  cbn [cardsFrom]. rewrite stackAfter_app, cardOps_eq.
  cbn [stackAfter Nat.leb]. apply IH.
Qed.

Lemma src_loaded decode (urls : list string) :
  (∀ u, u ∈ urls → decode u ≠ None) →
  src <$> omap (loaded decode) urls = urls.
Proof.
  induction urls as [|u urls IH]; intros Hall; csimpl; [done|].
  assert (Hu : decode u ≠ None) by (apply Hall, elem_of_cons; by left).
  unfold loaded at 1. destruct (decode u) as [[w h]|]; [|done]. csimpl.
  f_equal. apply IH. intros u' Hu'. apply Hall, elem_of_cons. by right.
Qed.

Lemma drawnImages_cards random entries k :
  drawnImages (cardsFrom random entries k) = entries.*2.
Proof.
  revert k. induction entries as [|[lbl img] entries IH]; intros k; [done|].
  cbn [cardsFrom]. unfold drawnImages in *.
  rewrite omap_app, IH, cardOps_eq. done.
Qed.

Lemma writtenTexts_cards random entries k :
  writtenTexts (cardsFrom random entries k)
  = String.append "#" <$> entries.*1.
Proof.
  revert k. induction entries as [|[lbl img] entries IH]; intros k; [done|].
  cbn [cardsFrom]. unfold writtenTexts in *.
  rewrite omap_app, IH, cardOps_eq. done.
Qed.

(** The canvas of a call that succeeds, with its cards listed. *)
Lemma createAlbumPage_content decode random (imageData : Obj.t string) :
  (∀ u, u ∈ Obj.values imageData → decode u ≠ None) →
  ∃ entries,
    (createAlbumPage true decode random imageData []).2
    = inr (Jpeg 0.9 (painted preludeLog ++ cardsFrom random entries 0))
    ∧ entries.*1 = Obj.keys imageData
    ∧ src <$> entries.*2 = Obj.values imageData.
Proof.
  intros Hall.
  exists (zip (Obj.keys imageData)
              (omap (loaded decode) (Obj.values imageData))).
  split; [|split].
  - rewrite cardsFrom_imap. by apply createAlbumPage_loaded.
  - apply fst_zip. rewrite loaded_all_length by done.
    unfold Obj.keys, Obj.values. by rewrite !length_fmap.
  - rewrite snd_zip; [by apply src_loaded|].
    rewrite loaded_all_length by done.
    unfold Obj.keys, Obj.values. by rewrite !length_fmap.
Qed.

(** X13.  In the canvas of any call that succeeds every [restore] undoes
    a [save] made before it, no [save] is made inside another, and at the
    end nothing is left saved: the translation, the rotation and the clip
    of a card never reach the next card. *)
Theorem canvas_state_is_restored decode random (imageData : Obj.t string) :
  (∀ u, u ∈ Obj.values imageData → decode u ≠ None) →
  ∃ content,
    (createAlbumPage true decode random imageData []).2
    = inr (Jpeg 0.9 content)
    ∧ stackAfter 1 0 content = Some 0.
Proof.
  intros Hall.
  destruct (createAlbumPage_content decode random imageData Hall)
    as (entries & Hres & _).
  eexists. split; [exact Hres|].
  rewrite stackAfter_app. change (stackAfter 1 0 (painted preludeLog))
    with (Some 0). apply stackAfter_cards.
Qed.

Lemma canvas_state_is_restored_witness :
  (∀ u, u ∈ Obj.values sampleAlbum7 → sampleDecode u ≠ None)
  ∧ ∃ content,
      (createAlbumPage true sampleDecode noJitter sampleAlbum7 []).2
      = inr (Jpeg 0.9 content)
      ∧ stackAfter 1 0 content = Some 0.
Proof.
  split; [exact sampleAlbum7_loads|].
  exact (canvas_state_is_restored sampleDecode noJitter sampleAlbum7
           sampleAlbum7_loads).
Defined.

(** X14.  The canvas of a call that succeeds shows every supplied image
    exactly once, in the order of the mapping, and its texts are the title,
    the subtitle and then, card by card, [#] followed by the label of the
    image of that card. *)
Theorem canvas_shows_every_entry decode random (imageData : Obj.t string) :
  (∀ u, u ∈ Obj.values imageData → decode u ≠ None) →
  ∃ content,
    (createAlbumPage true decode random imageData []).2
    = inr (Jpeg 0.9 content)
    ∧ src <$> drawnImages content = Obj.values imageData
    ∧ writtenTexts content
      = [titleText; "Made with Gemini AI"]
        ++ (String.append "#" <$> Obj.keys imageData).
Proof.
  intros Hall.
  destruct (createAlbumPage_content decode random imageData Hall)
    as (entries & Hres & Hfst & Hsnd).
  eexists. split; [exact Hres|]. split.
  - unfold drawnImages. rewrite omap_app.
    change (omap _ (painted preludeLog)) with (@nil HTMLImageElement).
    simpl. fold (drawnImages (cardsFrom random entries 0)).
    by rewrite drawnImages_cards.
  - unfold writtenTexts. rewrite omap_app.
    fold (writtenTexts (cardsFrom random entries 0)).
    rewrite writtenTexts_cards, Hfst. done.
Qed.

Lemma canvas_shows_every_entry_witness :
  (∀ u, u ∈ Obj.values sampleAlbum7 → sampleDecode u ≠ None)
  ∧ ∃ content,
      (createAlbumPage true sampleDecode noJitter sampleAlbum7 []).2
      = inr (Jpeg 0.9 content)
      ∧ src <$> drawnImages content = Obj.values sampleAlbum7
      ∧ writtenTexts content
        = [titleText; "Made with Gemini AI"]
          ++ (String.append "#" <$> Obj.keys sampleAlbum7).
Proof.
  split; [exact sampleAlbum7_loads|].
  exact (canvas_shows_every_entry sampleDecode noJitter sampleAlbum7
           sampleAlbum7_loads).
Defined.

(** *** Where the cards are *)

Section Placement.
Local Open Scope Q_scope.

Local Ltac layout_values :=
  unfold cardX, cardY, canvasWidth, canvasHeight, contentTopMargin,
    grid_padding, Qdiv;
  rewrite ?cellWidth_val, ?cellHeight_val, ?cardWidth_val, ?cardHeight_val;
  change (/ 2) with (1 # 2).

Lemma num_0 : num 0 == 0.
Proof. reflexivity. Qed.

Lemma num_nonneg n : 0 <= num n.
Proof. change 0 with (num 0). apply num_le. lia. Qed.

Lemma num_lt n m : (n < m)%nat → num n + 1 <= num m.
Proof. intros H. rewrite <- num_S. apply num_le. lia. Qed.

Lemma col_cases index : colOf index = 0%nat ∨ colOf index = 1%nat.
Proof. unfold colOf, grid_cols. lia. Qed.

Lemma same_cell index index' :
  colOf index = colOf index' → rowOf index = rowOf index' → index = index'.
Proof. unfold colOf, rowOf, grid_cols. lia. Qed.

(** X15.  Whatever the number of entries, the rectangles of two different
    cards, before rotation, do not overlap; and each of the first six lies
    inside the canvas, below the margin kept for the title. *)
Theorem cards_do_not_overlap (i j : nat) :
  i ≠ j →
  cardsApart i j
  ∧ ((i < grid_cols * grid_rows)%nat →
     0 <= cardX i
     ∧ cardX i + cardWidth <= canvasWidth
     ∧ contentTopMargin <= cardY i
     ∧ cardY i + cardHeight <= canvasHeight).
Proof.
  intros Hne. split.
  - unfold cardsApart.
    destruct (decide (colOf i = colOf j)) as [Hcol|Hcol].
    + assert (Hrow : rowOf i ≠ rowOf j).
      { intros Hrow. by apply Hne, same_cell. }
      destruct (decide (rowOf i < rowOf j)%nat) as [Hlt|Hge].
      * right. right. left. apply num_lt in Hlt. layout_values. lra.
      * right. right. right.
        assert (Hlt : (rowOf j < rowOf i)%nat) by lia.
        apply num_lt in Hlt. layout_values. lra.
    + destruct (col_cases i) as [Hi|Hi], (col_cases j) as [Hj|Hj];
        try congruence.
      * left. unfold cardX. rewrite Hi, Hj. change (num 0) with 0.
        change (num 1) with 1. layout_values. lra.
      * right. left. unfold cardX. rewrite Hi, Hj. change (num 0) with 0.
        change (num 1) with 1. layout_values. lra.
  - intros Hi.
    assert (Hrow : num (rowOf i) <= 2).
    { change 2 with (num 2). apply num_le.
      unfold rowOf, grid_cols, grid_rows in *. lia. }
    pose proof (num_nonneg (rowOf i)) as Hrow0.
    destruct (col_cases i) as [Hc|Hc]; unfold cardX; rewrite Hc;
      [change (num 0) with 0|change (num 1) with 1];
      layout_values; split_and!; lra.
Qed.

Lemma cards_do_not_overlap_witness :
  2%nat ≠ 5%nat
  ∧ cardsApart 2 5
  ∧ cardY 5 + cardHeight <= canvasHeight.
Proof.
  assert (Hne : 2%nat ≠ 5%nat) by lia.
  destruct (cards_do_not_overlap 5 2 (not_eq_sym Hne)) as [_ Hin].
  destruct Hin as (_ & _ & _ & Hbottom); [vm_compute; lia|].
  split; [exact Hne|]. split; [|exact Hbottom].
  exact (proj1 (cards_do_not_overlap 2 5 Hne)).
Defined.

(** X16.  With [Math.random()] in [0, 1) a card is turned by at least
    -0.025 and by less than 0.025 radians. *)
Theorem rotation_is_small random index :
  0 <= random index → random index < 1 →
  - (0.025) <= rotationOf random index ∧ rotationOf random index < 0.025.
Proof. intros H0 H1. unfold rotationOf. split; lra. Qed.

Lemma rotation_is_small_witness :
  0 <= noJitter 3 ∧ noJitter 3 < 1
  ∧ - (0.025) <= rotationOf noJitter 3 ∧ rotationOf noJitter 3 < 0.025.
Proof.
  assert (H0 : 0 <= noJitter 3) by (vm_compute; discriminate).
  assert (H1 : noJitter 3 < 1) by reflexivity.
  split; [exact H0|]. split; [exact H1|].
  exact (rotation_is_small noJitter 3 H0 H1).
Defined.

End Placement.

(** ** The message of a failed load *)





(** ** The shake gesture *)

(** X18.  Whatever the gestures and the clock, two calls of [onShake] in
    a row are more than 2000 ms apart, and the first one is more than
    2000 ms after the time the card last remembers. *)
Theorem shakes_respect_cooldown hasOnShake isMobile gs r :
  spacedFrom (lastShakeTime r) (shakeTimes hasOnShake isMobile gs r).
Proof.
  revert r. induction gs as [|[|now [x y]] gs IH]; intros r; simpl.
  - done.
  - apply (IH (handleDragStart r)).
  - unfold handleDrag.
    destruct (negb hasOnShake || isMobile); [apply IH|].
    destruct (lastVelocity r) as [prevX prevY].
    pose proof (IH {| lastShakeTime := lastShakeTime r;
                      lastVelocity := (x, y) |}) as Hquiet.
    destruct (negb (Qle_bool (x * x + y * y) _)); simpl; [|exact Hquiet].
    destruct (negb (Qle_bool 0 _)); simpl; [|exact Hquiet].
    destruct (shakeCooldown <? now - lastShakeTime r)%Z eqn:Hcool; simpl;
      [|exact Hquiet].
    split; [by apply Z.ltb_lt|].
    exact (IH {| lastShakeTime := now; lastVelocity := (x, y) |}).
Qed.

Lemma square_sum_nonneg (x y : Q) : (0 <= x * x + y * y)%Q.
Proof.
  assert (Hsq : ∀ z : Q, (0 <= z * z)%Q).
  { intros z. destruct (Qlt_le_dec z 0) as [Hneg|Hpos].
    - assert (E : (z * z == (- z) * (- z))%Q) by ring.
      rewrite E. apply Qmult_le_0_compat; lra.
    - by apply Qmult_le_0_compat. }
  pose proof (Hsq x). pose proof (Hsq y). lra.
Qed.

(** X19.  The first drag event after the start of a drag never counts as
    a shake, nor does an event with the same velocity as the one before
    it; and on mobile, or without an [onShake] handler, no drag event ever
    does, and the card remembers nothing of it. *)
Theorem shake_needs_a_reversal hasOnShake isMobile now velocity r :
  (handleDrag hasOnShake isMobile now velocity (handleDragStart r)).2 = false
  ∧ (lastVelocity r = velocity →
     (handleDrag hasOnShake isMobile now velocity r).2 = false)
  ∧ (hasOnShake = false ∨ isMobile = true →
     handleDrag hasOnShake isMobile now velocity r = (r, false)
     ∧ ∀ gs, shakeTimes hasOnShake isMobile gs r = []).
Proof.
  destruct velocity as [x y]. split_and!.
  - unfold handleDrag. destruct (negb hasOnShake || isMobile); [done|].
    simpl.
    assert (Hdot : Qle_bool 0 (x * 0 + y * 0) = true).
    { apply Qle_bool_iff. lra. }
    rewrite Hdot. simpl. by rewrite andb_false_r.
  - intros Hv. unfold handleDrag.
    destruct (negb hasOnShake || isMobile); [done|]. rewrite Hv.
    assert (Hdot : Qle_bool 0 (x * x + y * y) = true).
    { apply Qle_bool_iff, square_sum_nonneg. }
    rewrite Hdot. simpl. by rewrite andb_false_r.
  - intros Hoff.
    assert (Hguard : negb hasOnShake || isMobile = true).
    { destruct Hoff as [-> | ->]; [done|by rewrite orb_true_r]. }
    split; [unfold handleDrag; by rewrite Hguard|].
    intros gs. revert r.
    induction gs as [|[|now' v'] gs IH]; intros r'; simpl; [done|apply IH|].
    unfold handleDrag. rewrite Hguard. simpl. apply IH.
Qed.

Lemma shake_needs_a_reversal_witness :
  lastVelocity initialDragRefs = (0%Q, 0%Q)
  ∧ (handleDrag true false 5000 (0%Q, 0%Q) initialDragRefs).2 = false
  ∧ (true = false ∨ true = true)
  ∧ shakeTimes true true
      [DragStart; Drag 5000 (2000%Q, 0%Q); Drag 5016 ((-2000)%Q, 0%Q)]
      initialDragRefs = [].
Proof.
  assert (Hv : lastVelocity initialDragRefs = (0%Q, 0%Q)) by reflexivity.
  assert (Hm : true = false ∨ true = true) by (by right).
  split; [exact Hv|]. split.
  - exact (proj1 (proj2 (shake_needs_a_reversal true false 5000 (0%Q, 0%Q)
                           initialDragRefs)) Hv).
  - split; [exact Hm|].
    exact (proj2 (proj2 (proj2 (shake_needs_a_reversal true true 0 (0%Q, 0%Q)
                                  initialDragRefs)) Hm) _).
Defined.

(** A fast reversal on a desktop card, long enough after the last shake,
    does count. *)
Example shake_detected :
  shakeTimes true false
    [DragStart; Drag 5000 (2000%Q, 0%Q); Drag 5016 ((-2000)%Q, 0%Q);
     Drag 5032 (2000%Q, 0%Q)]
    initialDragRefs = [5016%Z].
Proof. reflexivity. Qed.

(** ** What a card shows *)

(** X20.  Whatever the status and the URL, a card shows exactly one of
    its four views: the spinner exactly when pending, the error sign
    exactly when in error, the picture exactly when done with a non-empty
    URL, and otherwise, done without URL, the placeholder.  A label that
    has no entry in the results map yet is shown with the spinner. *)
Theorem card_shows_one_view (st : ImageStatus) (imageUrl : option string) :
  cardViews st imageUrl
  = [match st, imageUrl with
     | StPending, _ => LoadingSpinner
     | StError, _ => ErrorDisplay
     | StDone, Some (String c u) => Picture (String c u)
     | StDone, _ => Placeholder
     end]
  ∧ ∀ g lbl, Obj.get g lbl = None →
             cardViews (shownStatus g lbl) (shownUrl g lbl) = [LoadingSpinner].
Proof.
  split; [by destruct st, imageUrl as [[|c u]|]|].
  intros g lbl Hnone. unfold shownStatus, shownUrl. by rewrite Hnone.
Qed.

Lemma card_shows_one_view_witness :
  Obj.get (generatedImages sampleApp) "Í∑πÎåÄÎÖ∏" = None
  ∧ cardViews (shownStatus (generatedImages sampleApp) "Í∑πÎåÄÎÖ∏")
      (shownUrl (generatedImages sampleApp) "Í∑πÎåÄÎÖ∏")
    = [LoadingSpinner].
Proof.
  assert (Hnone : Obj.get (generatedImages sampleApp) "Í∑πÎåÄÎÖ∏" = None)
    by reflexivity.
  split; [exact Hnone|].
  exact (proj2 (card_shows_one_view StPending None) _ _ Hnone).
Defined.

(** ** The footer *)

(** X21.  After [n] ticks the footer shows idea number [n mod 6]: it goes
    through the six ideas in order, starts again after the last, and its
    index always points at an idea. *)
Theorem ideas_cycle n :
  Nat.iter n nextIdea 0 = n mod 6
  ∧ is_Some (REMIX_IDEAS !! Nat.iter n nextIdea 0).
Proof.
  assert (Hiter : Nat.iter n nextIdea 0 = n mod 6).
  { induction n as [|n IH]; [done|]. rewrite Nat.iter_succ, IH.
    unfold nextIdea.
    change (length REMIX_IDEAS) with 6. lia. }
  split; [exact Hiter|]. rewrite Hiter. apply lookup_lt_is_Some.
  change (length REMIX_IDEAS) with 6. lia.
Qed.

(** ** From the click to the album *)

Lemma run_invariant (P : Pipeline → Prop) (Q : Event → Prop) evs s0 s :
  Forall Q evs → P s0 →
  (∀ ev s s', Q ev → P s → step ev s = Some s' → P s') →
  run evs s0 = Some s → P s.
Proof.
  intros HQ H0 Hstep. revert s0 H0.
  induction HQ as [|ev evs Hev HQ IH]; intros s0 H0; simpl.
  - by intros [= <-].
  - destruct (step ev s0) as [s1|] eqn:Hs; [|done]. apply IH.
    by eapply Hstep.
Qed.

Lemma filter_length_lt {A} (p : A → bool) (l : list A) x :
  x ∈ l → p x = false → length (List.filter p l) < length l.
Proof.
  induction l as [|y l IH]; [by intros ?%elem_of_nil|].
  intros [->|Hin]%elem_of_cons Hp; simpl.
  - rewrite Hp. pose proof (filter_length p l). lia.
  - specialize (IH Hin Hp). destruct (p y); simpl; lia.
Qed.

(** X22.  From the click to the download: over emotions with pairwise
    distinct labels, when every request of a run resolves with a
    non-empty URL that decodes, then once the workers have joined the
    export downloads [my-emoji-collection.jpg], whose cards are those of
    the emotions in declaration order. *)
Theorem generate_then_export decode random emotions a s0 evs s :
  NoDup (label <$> emotions) →
  handleGenerateClick_start emotions a = Some s0 →
  run evs s0 = Some s →
  joined s = true →
  (∀ w o, Settle w o ∈ evs →
          ∃ u, o = Resolved u ∧ u ≠ "" ∧ decode u ≠ None) →
  ∃ entries,
    effects (handleDownloadAlbum true decode random emotions (app s))
    = [Download
         (Jpeg 0.9 (painted preludeLog
                    ++ concat (imap (fun i entry => cardOps random entry i)
                                 entries)))
         "my-emoji-collection.jpg"]
    ∧ entries.*1 = label <$> emotions.
Proof.
  intros Hnd Hstart Hrun Hjoined Hok.
  assert (Hreach : reachable emotions a s) by by exists s0, evs.
  pose proof (invariant_reachable _ _ _ Hreach) as Hinv.
  destruct (reachable_keys_pending _ _ _ Hnd Hreach) as [Hkeys _].
  destruct (settled_facts _ _ Hinv Hjoined) as (_ & _ & Htr).
  assert (Hentries : ∀ k image, (k, image) ∈ generatedImages (app s) →
            image = pendingEntry
            ∨ ∃ u, image = doneEntry u ∧ u ≠ "" ∧ decode u ≠ None).
  { revert Hrun.
    apply (run_invariant
             (fun s => ∀ k image, (k, image) ∈ generatedImages (app s) →
                image = pendingEntry
                ∨ ∃ u, image = doneEntry u ∧ u ≠ "" ∧ decode u ≠ None)
             (fun ev => ∀ w o, ev = Settle w o →
                ∃ u, o = Resolved u ∧ u ≠ "" ∧ decode u ≠ None)).
    - apply Forall_forall. intros ev Hev w o ->. by eapply Hok.
    - unfold handleGenerateClick_start in Hstart.
      destruct (uploadedImage a); [|done]. injection Hstart as <-. simpl.
      intros k image Hin. left.
      pose proof (initialImages_pending emotions) as Hall.
      rewrite Forall_forall in Hall. exact (Hall _ Hin).
    - intros ev s1 s2 Hev HP Hstep. destruct ev as [w|w o|]; simpl in Hstep.
      + unfold resume in Hstep.
        destruct (workers s1 !! w) as [[| |]|]; try done.
        destruct (emotionsQueue s1); by injection Hstep as <-.
      + unfold settle in Hstep.
        destruct (workers s1 !! w) as [[|e|]|]; try done.
        injection Hstep as <-. simpl.
        destruct (Hev w o eq_refl) as (u & -> & Hne & Hdec). simpl.
        intros k image Hin.
        assert (Hall : Forall
                  (fun entry : string * GeneratedImage =>
                     entry.2 = pendingEntry
                     ∨ ∃ u, entry.2 = doneEntry u ∧ u ≠ "" ∧ decode u ≠ None)
                  (writeDone (label e) u (generatedImages (app s1)))).
        { apply obj_set_Forall.
          - apply Forall_forall. intros [k' image'] Hin'.
            exact (HP k' image' Hin').
          - right. by exists u. }
        rewrite Forall_forall in Hall. exact (Hall _ Hin).
      + unfold join in Hstep. destruct (_ && _); [|done].
        by injection Hstep as <-. }
  destruct (export_download decode random emotions (app s) Hnd Hkeys)
    as (entries & Heff & Hfst & _).
  - intros k image Hin.
    assert (Hget : Obj.get (generatedImages (app s)) k = Some image).
    { apply obj_get_elem_iff; [by rewrite Hkeys|done]. }
    assert (Hk : k ∈ (transitions s).*1).
    { rewrite Htr, <- Hkeys. apply obj_get_is_Some. by eexists. }
    destruct (inv_terminal _ _ Hinv k Hk) as (g & Hg & Hterm).
    rewrite Hget in Hg. injection Hg as <-.
    destruct (Hentries k image Hin) as [->|(u & -> & Hne & Hdec)].
    + by destruct Hterm.
    + by exists u.
  - by exists entries.
Qed.

Lemma sampleSuccess_loads w o :
  Settle w o ∈ sampleSuccessEvents →
  ∃ u, o = Resolved u ∧ u ≠ "" ∧ sampleDecode u ≠ None.
Proof.
  intros Hin. unfold sampleSuccessEvents in Hin.
  repeat (apply elem_of_cons in Hin as [Hin|Hin];
          [first [discriminate Hin
                 |injection Hin as -> ->;
                  eexists; split_and!; [reflexivity|done|by vm_compute]]|]).
  by apply elem_of_nil in Hin.
Qed.

Lemma generate_then_export_witness :
  NoDup (label <$> EMOTIONS)
  ∧ handleGenerateClick_start EMOTIONS sampleApp = Some sampleStart
  ∧ run sampleSuccessEvents sampleStart = Some sampleSuccess
  ∧ joined sampleSuccess = true
  ∧ ∃ entries,
      effects (handleDownloadAlbum true sampleDecode noJitter EMOTIONS
                 (app sampleSuccess))
      = [Download
           (Jpeg 0.9 (painted preludeLog
                      ++ concat (imap (fun i entry => cardOps noJitter entry i)
                                   entries)))
           "my-emoji-collection.jpg"]
      ∧ entries.*1 = label <$> EMOTIONS.
Proof.
  assert (Hstart : handleGenerateClick_start EMOTIONS sampleApp
                   = Some sampleStart) by reflexivity.
  assert (Hrun : run sampleSuccessEvents sampleStart = Some sampleSuccess)
    by (vm_compute; reflexivity).
  assert (Hjoined : joined sampleSuccess = true) by (vm_compute; reflexivity).
  split_and!; [exact EMOTIONS_labels_NoDup|exact Hstart|exact Hrun
              |exact Hjoined|].
  exact (generate_then_export sampleDecode noJitter EMOTIONS sampleApp
           sampleStart sampleSuccessEvents sampleSuccess
           EMOTIONS_labels_NoDup Hstart Hrun Hjoined sampleSuccess_loads).
Defined.

(** X23.  Over emotions with pairwise distinct labels, in any state of a
    run in which the entry of some emotion is not done with a non-empty
    URL, be it pending or in error, the export only shows the notice that
    emoticons are still being generated: nothing is composed, nothing is
    downloaded. *)
Theorem export_refused_after_failure getContext decode random emotions a s e image :
  NoDup (label <$> emotions) →
  reachable emotions a s →
  e ∈ emotions →
  Obj.get (generatedImages (app s)) (label e) = Some image →
  isDoneWithUrl image = false →
  let r := handleDownloadAlbum getContext decode random emotions (app s) in
  effects r = [Alert stillGeneratingNotice] ∧ composition r = None.
Proof.
  intros Hnd Hreach He Hget Hnot r.
  destruct (reachable_keys_pending _ _ _ Hnd Hreach) as [Hkeys _].
  assert (Hndg : NoDup (Obj.keys (generatedImages (app s))))
    by by rewrite Hkeys.
  assert (Hlt : length (Obj.keys (albumInput (generatedImages (app s))))
                < length emotions).
  { rewrite albumInput_keys by done. unfold Obj.keys at 1.
    rewrite length_fmap.
    replace (length emotions) with (length (generatedImages (app s))).
    - apply (filter_length_lt _ _ (label e, image)); [|done].
      by apply obj_get_Some_elem.
    - rewrite <- (length_fmap label emotions), <- Hkeys. unfold Obj.keys.
      by rewrite length_fmap. }
  unfold r, handleDownloadAlbum. cbv zeta.
  change (generatedImages (setIsDownloading true (app s)))
    with (generatedImages (app s)).
  apply Nat.ltb_lt in Hlt. by rewrite Hlt.
Qed.

Lemma export_refused_after_failure_witness :
  let r := handleDownloadAlbum true sampleDecode noJitter EMOTIONS
             (app sampleFinal) in
  NoDup (label <$> EMOTIONS)
  ∧ reachable EMOTIONS sampleApp sampleFinal
  ∧ sampleSecond ∈ EMOTIONS
  ∧ Obj.get (generatedImages (app sampleFinal)) (label sampleSecond)
    = Some (errorEntry "quota exceeded")
  ∧ isDoneWithUrl (errorEntry "quota exceeded") = false
  ∧ effects r = [Alert stillGeneratingNotice] ∧ composition r = None.
Proof.
  intros r.
  assert (Hin : sampleSecond ∈ EMOTIONS).
  { apply elem_of_cons. right. apply elem_of_cons. by left. }
  assert (Hget : Obj.get (generatedImages (app sampleFinal))
                   (label sampleSecond)
                 = Some (errorEntry "quota exceeded"))
    by (vm_compute; reflexivity).
  assert (Hnot : isDoneWithUrl (errorEntry "quota exceeded") = false)
    by reflexivity.
  split_and!; [exact EMOTIONS_labels_NoDup|exact sampleFinal_reachable
              |exact Hin|exact Hget|exact Hnot|..];
    apply (export_refused_after_failure true sampleDecode noJitter EMOTIONS
             sampleApp sampleFinal sampleSecond _
             EMOTIONS_labels_NoDup sampleFinal_reachable Hin Hget Hnot).
Defined.
